(** * The signals session hook: [useSignalsWorker]

    A shallow embedding of [src/utils/signals/useSignalsWorker.ts]: the
    React hook that owns the shared worker, folds the worker's messages
    into a connection status, probes the worker when the page's
    visibility changes, and polls to reconnect.

    The hook is a bundle of event handlers and effects over React state
    ([useState]), refs ([useRef]) and the host's timers.  Each handler is a
    function on the record [St]; one delivery of an event is the handler
    followed by the re-render and the effects whose dependencies changed
    ([deliver]).  Updates made by one handler are committed by one render
    (React batches the updates of a task), and the reactions of a settled
    promise run before the next task.

    Time is a clock in milliseconds: a timed trace gives each event its
    time, a timeout or an interval fires exactly when it is due and none is
    left overdue ([admissible]).  The latches made by the probe live in a
    store addressed by [deferredRef], so that what a timer's callback
    reaches through the ref when it fires is what the source reaches.

    The machine leaves out [console] output, the [unload] listener and the
    debug hooks [window.logSignal] and [window.ping]; the listener and the
    hooks are modelled apart, with the closures the renders install, and
    the accounts effect and the store of the session provider, which follow
    the hook in the same source file, come after them. *)

From Stdlib Require Import ZArith.
From stdpp Require Import base gmap strings list.

Local Open Scope string_scope.
Local Open Scope list_scope.
Local Open Scope Z_scope.

(** ** Data *)

(** [type SignalStatus]. *)
Inductive SignalStatus :=
  | connected | closed | error | reconnected | reconnecting.

(** [type SignalState = { status; message? }]. *)
Record SignalState := mkSignalState {
  status : SignalStatus;
  message : option string;
}.

#[global] Instance SignalStatus_eq_dec : EqDecision SignalStatus.
Proof. solve_decision. Defined.
#[global] Instance SignalState_eq_dec : EqDecision SignalState.
Proof. solve_decision. Defined.

(** Modelled from the spec: the type [WorkerOutgoingMessage] is declared in
    [./types], which is not part of the sources; its cases are the eight
    message types the handler of [worker.port.onmessage] tests, the
    inbound vocabulary of the specification.  Payloads are opaque to the
    hook and are kept as serialised text. *)
Inductive WorkerOutgoingMessage :=
  | worker_ready
  | connection_ready
  | connection_closed (msg : option string)
  | connection_error (msg : option string)
  | connection_reconnected
  | connection_reconnecting
  | event_received (target payload : string)
  | pong.

(** What the hook posts on [worker.port]. *)
Inductive PortMessage :=
  | post_connection_init (token : string)
  | post_send (target args : string)
  | post_event_register (target : string)
  | post_ping.

#[global] Instance PortMessage_eq_dec : EqDecision PortMessage.
Proof. solve_decision. Defined.

(** Callbacks are opaque functions of the application; a call of one is
    recorded.  Emitter callbacks are named by a handle. *)
Inductive Call :=
  | onStatusChange (st : SignalState)
  | onConnected
  | onReconnected
  | onReconnecting
  | onClosed (msg : option string)
  | onError (msg : option string)
  | listener (target : string) (cb : nat) (payload : string).

#[global] Instance Call_eq_dec : EqDecision Call.
Proof. solve_decision. Defined.

(** The [options] argument: which of the optional callbacks are given. *)
Record Options := mkOptions {
  has_onConnected : bool;
  has_onReconnected : bool;
  has_onReconnecting : bool;
  has_onClosed : bool;
  has_onError : bool;
  has_onStatusChange : bool;
}.

Definition all_callbacks : Options := mkOptions true true true true true true.

(** [f?.(args)]: the call happens when [f] is given. *)
Definition optional_call (given : bool) (c : Call) : list Call :=
  if given then [c] else [].

(** ** The event emitter *)

Module EventEmitter.

(** Modelled from the spec: the class [EventEmitter] of [./utils] is not
    part of the sources.  The specification describes a registered
    listener as a mapping from an event-target name to a set of callback
    handles: added on [on], removed on the matching [off], and every
    callback registered for a target receives the payload emitted for
    it. *)
Abbreviation t := (gmap string (gset nat)) (only parsing).

(** Modelled from the spec: [new EventEmitter()] has no listener. *)
Definition empty : t := ∅.

(** Modelled from the spec: the set of callbacks registered for a
    target. *)
Definition callbacks (e : t) (target : string) : gset nat :=
  default ∅ (e !! target).

(** Modelled from the spec: [on] adds the callback to the set of its
    target. *)
Definition on (target : string) (cb : nat) (e : t) : t :=
  <[target := callbacks e target ∪ {[cb]}]> e.

(** Modelled from the spec: [off] removes exactly that callback/target
    pair. *)
Definition off (target : string) (cb : nat) (e : t) : t :=
  <[target := callbacks e target ∖ {[cb]}]> e.

(** Modelled from the spec: [emit] calls every callback registered for the
    target with the payload. *)
Definition emit (target payload : string) (e : t) : list Call :=
  (λ cb, listener target cb payload) <$> elements (callbacks e target).

End EventEmitter.

(** ** The probe latch *)

Inductive Settled := pending | resolved | rejected.

(** Modelled from the spec: the class [Deferred] of [./utils] is not part
    of the sources.  The specification describes a single-shot latch: it
    is resolved or rejected once, and later calls of [resolve] or [reject]
    do nothing.  [reaction] is the [then]/[catch] chain attached by
    [handleVisibilityChange], which closes over the identifier of its
    timeout; the latch made by [useRef(new Deferred())] has none. *)
Record Deferred := mkDeferred {
  settled : Settled;
  reaction : option positive;
}.

(** ** Timers of the host *)

(** A pending [setTimeout(() => deferredRef.current.reject(), 1000)]: the
    callback closes over the ref, not over a latch, so a timeout is its
    identifier and its due time. *)
Record Timeout := mkTimeout {
  tm_id : positive;
  tm_due : Z;
}.

(** A running [setInterval(..., 30 * 1000)] of the reconnect poll: the
    callback closes over the [accessToken] of the render that started
    it. *)
Record Interval := mkInterval {
  iv_id : positive;
  iv_token : string;
  iv_due : Z;
}.

Definition probe_timeout : Z := 1000.
Definition poll_period : Z := 30 * 1000.

(** ** The state of one mounted hook *)

Record St := mkSt {
  (* arguments of the hook *)
  accessToken : option string;
  options : Options;
  (* useState *)
  state : option SignalState;
  stateVer : nat;          (* identity of the object held by [state] *)
  ready : bool;
  worker : bool;           (* [worker] is not [null] *)
  (* useRef *)
  emitterRef : EventEmitter.t;
  deferredRef : nat;       (* address in [latches] *)
  timerRef : option positive;
  (* the latches ever made, by address *)
  latches : list Deferred;
  (* host: clock in ms, timer identifiers, pending timers *)
  now : Z;
  nextId : positive;
  timeouts : list Timeout;
  intervals : list Interval;
  (* observable: posts on [worker.port] and calls of callbacks *)
  outbox : list PortMessage;
  calls : list Call;
}.

Definition with_accessToken (v : option string) (s : St) : St :=
  mkSt v (options s) (state s) (stateVer s) (ready s) (worker s)
       (emitterRef s) (deferredRef s) (timerRef s) (latches s)
       (now s) (nextId s) (timeouts s) (intervals s) (outbox s) (calls s).

(** [setState(v)]: every call stores a fresh object, so the identity
    changes even when the fields are equal. *)
Definition setState (v : SignalState) (s : St) : St :=
  mkSt (accessToken s) (options s) (Some v) (S (stateVer s)) (ready s) (worker s)
       (emitterRef s) (deferredRef s) (timerRef s) (latches s)
       (now s) (nextId s) (timeouts s) (intervals s) (outbox s) (calls s).

Definition setReady (v : bool) (s : St) : St :=
  mkSt (accessToken s) (options s) (state s) (stateVer s) v (worker s)
       (emitterRef s) (deferredRef s) (timerRef s) (latches s)
       (now s) (nextId s) (timeouts s) (intervals s) (outbox s) (calls s).

Definition setWorker (v : bool) (s : St) : St :=
  mkSt (accessToken s) (options s) (state s) (stateVer s) (ready s) v
       (emitterRef s) (deferredRef s) (timerRef s) (latches s)
       (now s) (nextId s) (timeouts s) (intervals s) (outbox s) (calls s).

Definition with_emitter (v : EventEmitter.t) (s : St) : St :=
  mkSt (accessToken s) (options s) (state s) (stateVer s) (ready s) (worker s)
       v (deferredRef s) (timerRef s) (latches s)
       (now s) (nextId s) (timeouts s) (intervals s) (outbox s) (calls s).

Definition with_deferred (ref : nat) (ls : list Deferred) (s : St) : St :=
  mkSt (accessToken s) (options s) (state s) (stateVer s) (ready s) (worker s)
       (emitterRef s) ref (timerRef s) ls
       (now s) (nextId s) (timeouts s) (intervals s) (outbox s) (calls s).

Definition with_timerRef (v : option positive) (s : St) : St :=
  mkSt (accessToken s) (options s) (state s) (stateVer s) (ready s) (worker s)
       (emitterRef s) (deferredRef s) v (latches s)
       (now s) (nextId s) (timeouts s) (intervals s) (outbox s) (calls s).

Definition with_now (v : Z) (s : St) : St :=
  mkSt (accessToken s) (options s) (state s) (stateVer s) (ready s) (worker s)
       (emitterRef s) (deferredRef s) (timerRef s) (latches s)
       v (nextId s) (timeouts s) (intervals s) (outbox s) (calls s).

Definition with_nextId (v : positive) (s : St) : St :=
  mkSt (accessToken s) (options s) (state s) (stateVer s) (ready s) (worker s)
       (emitterRef s) (deferredRef s) (timerRef s) (latches s)
       (now s) v (timeouts s) (intervals s) (outbox s) (calls s).

Definition with_timeouts (v : list Timeout) (s : St) : St :=
  mkSt (accessToken s) (options s) (state s) (stateVer s) (ready s) (worker s)
       (emitterRef s) (deferredRef s) (timerRef s) (latches s)
       (now s) (nextId s) v (intervals s) (outbox s) (calls s).

Definition with_intervals (v : list Interval) (s : St) : St :=
  mkSt (accessToken s) (options s) (state s) (stateVer s) (ready s) (worker s)
       (emitterRef s) (deferredRef s) (timerRef s) (latches s)
       (now s) (nextId s) (timeouts s) v (outbox s) (calls s).

(** [worker.port.postMessage(m)]. *)
Definition postMessage (m : PortMessage) (s : St) : St :=
  mkSt (accessToken s) (options s) (state s) (stateVer s) (ready s) (worker s)
       (emitterRef s) (deferredRef s) (timerRef s) (latches s)
       (now s) (nextId s) (timeouts s) (intervals s) (outbox s ++ [m]) (calls s).

Definition invoke (cs : list Call) (s : St) : St :=
  mkSt (accessToken s) (options s) (state s) (stateVer s) (ready s) (worker s)
       (emitterRef s) (deferredRef s) (timerRef s) (latches s)
       (now s) (nextId s) (timeouts s) (intervals s) (outbox s) (calls s ++ cs).

(** ** Host timers *)

Definition setTimeout (delay : Z) (s : St) : positive * St :=
  let id := nextId s in
  (id, with_nextId (Pos.succ id)
         (with_timeouts (timeouts s ++ [mkTimeout id (now s + delay)]) s)).

Definition clearTimeout (id : positive) (s : St) : St :=
  with_timeouts (filter (λ tm, tm_id tm ≠ id) (timeouts s)) s.

Definition setInterval (token : string) (period : Z) (s : St) : positive * St :=
  let id := nextId s in
  (id, with_nextId (Pos.succ id)
         (with_intervals (intervals s ++ [mkInterval id token (now s + period)]) s)).

Definition clearInterval (id : positive) (s : St) : St :=
  with_intervals (filter (λ iv, iv_id iv ≠ id) (intervals s)) s.

(** ** The latch held by [deferredRef] *)

Definition lost_message : string := "connection to shared worker lost".

(** Modelled from the spec: settling the latch the ref holds; its callers
    settle a pending latch only, a settled one stays as it is. *)
Definition settle (v : Settled) (s : St) : St :=
  with_deferred (deferredRef s)
    (alter (λ d, mkDeferred v (reaction d)) (deferredRef s) (latches s)) s.

(** [deferredRef.current.resolve()], with the [then] reaction of lines
    98-101 when the latch has one: [clearTimeout(timeout); setReady(true)]. *)
Definition resolve_current (s : St) : St :=
  match latches s !! deferredRef s with
  | Some (mkDeferred pending r) =>
      let s1 := settle resolved s in
      match r with
      | Some timeout => setReady true (clearTimeout timeout s1)
      | None => s1
      end
  | _ => s
  end.

(** [deferredRef.current.reject()], with the [catch] reaction of lines
    102-105 when the latch has one. *)
Definition reject_current (s : St) : St :=
  match latches s !! deferredRef s with
  | Some (mkDeferred pending r) =>
      let s1 := settle rejected s in
      match r with
      | Some _ =>
          setState (mkSignalState closed (Some lost_message)) (setReady false s1)
      | None => s1
      end
  | _ => s
  end.

(** ** Handlers *)

(** [worker.port.onmessage] (lines 54-70). *)
Definition onmessage (data : WorkerOutgoingMessage) (s : St) : St :=
  match data with
  | worker_ready => setReady true s
  | connection_ready =>
      setState
        (match state s with
         | Some prev =>
             match status prev with
             | closed | error => mkSignalState reconnected None
             | _ => mkSignalState connected None
             end
         | None => mkSignalState connected None
         end) s
  | connection_closed msg => setState (mkSignalState closed msg) s
  | connection_error msg => setState (mkSignalState error msg) s
  | connection_reconnected => setState (mkSignalState reconnected None) s
  | connection_reconnecting => setState (mkSignalState reconnecting None) s
  | event_received target payload =>
      invoke (EventEmitter.emit target payload (emitterRef s)) s
  | pong => resolve_current s
  end.

(** [handleVisibilityChange] (lines 93-106); [w] is the [worker] of the
    render whose effect registered the listener. *)
Definition handleVisibilityChange (w : bool) (s : St) : St :=
  let s1 := with_deferred (length (latches s))
              (latches s ++ [mkDeferred pending None]) s in
  let s2 := if w then postMessage post_ping s1 else s1 in
  let '(timeout, s3) := setTimeout probe_timeout s2 in
  with_deferred (deferredRef s3)
    (alter (λ d, mkDeferred (settled d) (Some timeout)) (deferredRef s3) (latches s3)) s3.

(** The callback of a probe's timeout: the timeout is spent, and whatever
    latch the ref holds now is rejected. *)
Definition timeout_fires (id : positive) (s : St) : St :=
  reject_current (clearTimeout id s).

(** One tick of the reconnect interval (lines 139-142). *)
Definition interval_fires (id : positive) (s : St) : St :=
  match list_find (λ iv, iv_id iv = id) (intervals s) with
  | Some (_, iv) =>
      postMessage (post_connection_init (iv_token iv))
        (with_intervals
           ((λ i, if decide (iv_id i = id)
                  then mkInterval (iv_id i) (iv_token i) (iv_due i + poll_period)
                  else i) <$> intervals s) s)
  | None => s
  end.

(** The facade (lines 152-163); [w] is the [worker] of the render that
    built it. *)
Definition send (w : bool) (target args : string) (s : St) : St :=
  if w then postMessage (post_send target args) s else s.

Definition on (w : bool) (target : string) (cb : nat) (s : St) : St :=
  let s1 := if w then postMessage (post_event_register target) s else s in
  with_emitter (EventEmitter.on target cb (emitterRef s1)) s1.

Definition off (target : string) (cb : nat) (s : St) : St :=
  with_emitter (EventEmitter.off target cb (emitterRef s)) s.

(** ** Effects *)

(** What a render reads: the values its effects and closures see. *)
Record Render := mkRender {
  r_worker : bool;
  r_state : option SignalState;
  r_stateVer : nat;
  r_ready : bool;
  r_accessToken : option string;
}.

#[global] Instance Render_eq_dec : EqDecision Render.
Proof. solve_decision. Defined.

Definition render (s : St) : Render :=
  mkRender (worker s) (state s) (stateVer s) (ready s) (accessToken s).

(** A token in a condition: [undefined] and the empty string are falsy. *)
Definition truthy (tok : option string) : option string :=
  match tok with
  | Some t => if decide (t = "") then None else Some t
  | None => None
  end.

(** Line 135. *)
Definition disconnected (st : option SignalState) : bool :=
  match st with
  | None => true
  | Some v => match status v with closed | error => true | _ => false end
  end.

(** Has a dependency changed since the previous render (all of them have on
    the first)? *)
Definition changed {D} `{EqDecision D} (prev : option Render) (cur : Render)
    (deps : Render → D) : bool :=
  match prev with
  | None => true
  | Some p => bool_decide (deps p ≠ deps cur)
  end.

(** The effect on [[worker]] of lines 39-48. *)
Definition workerEffect (r : Render) (s : St) : St :=
  if r_worker r then s else setWorker true (setReady false s).

(** The effect on [[state]] of lines 73-89. *)
Definition statusEffect (o : Options) (st : option SignalState) : list Call :=
  match st with
  | None => []
  | Some v =>
      optional_call (has_onStatusChange o) (onStatusChange v) ++
      match status v with
      | connected => optional_call (has_onConnected o) onConnected
      | reconnected => optional_call (has_onReconnected o) onReconnected
      | reconnecting => optional_call (has_onReconnecting o) onReconnecting
      | closed => optional_call (has_onClosed o) (onClosed (message v))
      | error => optional_call (has_onError o) (onError (message v))
      end
  end.

(** The effect on [[worker, accessToken, ready]] of lines 128-131. *)
Definition initEffect (r : Render) (s : St) : St :=
  if r_worker r && r_ready r then
    match truthy (r_accessToken r) with
    | Some token => postMessage (post_connection_init token) s
    | None => s
    end
  else s.

(** The effect on [[disconnected, accessToken, worker, ready]] of lines
    136-148: its clean-up, then its body. *)
Definition pollCleanup (s : St) : St :=
  match timerRef s with
  | Some id => clearInterval id s
  | None => s
  end.

Definition pollEffect (r : Render) (s : St) : St :=
  match disconnected (r_state r), timerRef s with
  | false, Some id => clearInterval id s
  | d, _ =>
      if d && r_worker r && r_ready r then
        match truthy (r_accessToken r) with
        | Some token =>
            let '(id, s1) := setInterval token poll_period s in
            with_timerRef (Some id) s1
        | None => s
        end
      else s
  end.

(** The effects of one committed render, in the order of the source.  An
    effect runs when one of its dependencies differs from the previous
    render's, after the clean-up of its previous run.  (React runs the
    clean-ups of a commit before its effect bodies; the only clean-up with a
    trace in [St] is the poll's, and no body before the poll's touches what
    it clears, so it is run right before the poll's body.)  The effects on
    [[worker]] that only install a handler or a listener (lines 51-71 and
    92-112) and the effect on [[]] that installs [unload] leave no trace in
    [St]: [step] below hands the handlers the [worker] of the current
    render. *)
Definition run_effect (go : bool) (f : St → St) (s : St) : St :=
  if go then f s else s.

(** The dependency arrays of lines 131 and 148. *)
Definition init_deps (r : Render) := (r_worker r, r_accessToken r, r_ready r).

Definition poll_deps (r : Render) :=
  (disconnected (r_state r), r_accessToken r, r_worker r, r_ready r).

Definition effects (prev : option Render) (s : St) : St :=
  let r := render s in
  let s1 := run_effect (changed prev r r_worker) (workerEffect r) s in
  let s2 := run_effect (changed prev r r_stateVer)
              (λ x, invoke (statusEffect (options x) (r_state r)) x) s1 in
  let s3 := run_effect (changed prev r init_deps) (initEffect r) s2 in
  run_effect (changed prev r poll_deps)
    (λ x, pollEffect r (if prev is Some _ then pollCleanup x else x)) s3.

(** Effects may set state (the first one creates the worker), which
    renders again. *)
Definition rerender (prev : option Render) (s : St) : St :=
  let s1 := effects prev s in
  if decide (render s1 = render s) then s1
  else effects (Some (render s)) s1.

(** ** The mounted hook as a timed machine *)

Definition initial (token : option string) (o : Options) : St :=
  mkSt token o None 0%nat false false
       EventEmitter.empty 0%nat None [mkDeferred pending None]
       0 1%positive [] [] [] [].

Definition mount (token : option string) (o : Options) : St :=
  rerender None (initial token o).

Inductive Event :=
  | ev_message (data : WorkerOutgoingMessage)
  | ev_visibilitychange
  | ev_timeout (id : positive)
  | ev_interval (id : positive)
  | ev_accessToken (token : option string)
  | ev_send (target args : string)
  | ev_on (target : string) (cb : nat)
  | ev_off (target : string) (cb : nat).

Definition handle (e : Event) (s : St) : St :=
  match e with
  | ev_message data => if worker s then onmessage data s else s
  | ev_visibilitychange => handleVisibilityChange (worker s) s
  | ev_timeout id => timeout_fires id s
  | ev_interval id => interval_fires id s
  | ev_accessToken token => with_accessToken token s
  | ev_send target args => send (worker s) target args s
  | ev_on target cb => on (worker s) target cb s
  | ev_off target cb => off target cb s
  end.

(** An event may happen at time [t] when the clock does not run backwards,
    no pending timer is overdue, and a timer fires exactly when it is
    due. *)
Definition admissible (t : Z) (e : Event) (s : St) : bool :=
  bool_decide (now s ≤ t)
  && forallb (λ tm, bool_decide (t ≤ tm_due tm)) (timeouts s)
  && forallb (λ iv, bool_decide (t ≤ iv_due iv)) (intervals s)
  && match e with
     | ev_timeout id =>
         existsb (λ tm, bool_decide (tm_id tm = id ∧ tm_due tm = t)) (timeouts s)
     | ev_interval id =>
         existsb (λ iv, bool_decide (iv_id iv = id ∧ iv_due iv = t)) (intervals s)
     | _ => true
     end.

Definition deliver (e : Event) (s : St) : St :=
  rerender (Some (render s)) (handle e s).

Definition step (te : Z * Event) (s : St) : option St :=
  if admissible te.1 te.2 s
  then Some (deliver te.2 (with_now te.1 s))
  else None.

Fixpoint run (tr : list (Z * Event)) (s : St) : option St :=
  match tr with
  | [] => Some s
  | te :: tr' => match step te s with Some s' => run tr' s' | None => None end
  end.

Definition reachable (s : St) : Prop :=
  ∃ token o tr, run tr (mount token o) = Some s.

(** The state a mounted hook is in after a timed trace (the mounted state
    itself when the trace is not admissible). *)
Definition after (token : option string) (o : Options) (tr : list (Z * Event)) : St :=
  default (mount token o) (run tr (mount token o)).

(** Messages delivered one after the other, in the order of arrival. *)
Definition deliver_messages (ms : list WorkerOutgoingMessage) (s : St) : St :=
  foldl (λ x m, deliver (ev_message m) x) s ms.

(** ** The specification's side *)

Module Table.

(** The session status of the specification, with [unset] for "no status
    yet", and the transition table of its section 4.2, written from its
    words: [connection:ready] gives [reconnected] after [closed] or
    [error] and [connected] otherwise; [connection:closed] and
    [connection:error] carry their optional message; the other
    lifecycle messages name their status; any other message leaves the
    status as it is. *)
Inductive status :=
  | unset | connected | closed | error | reconnected | reconnecting.

#[global] Instance status_eq_dec : EqDecision status.
Proof. solve_decision. Defined.

Definition transition (prev : status * option string)
    (m : WorkerOutgoingMessage) : status * option string :=
  match m with
  | connection_ready =>
      if decide (prev.1 = closed ∨ prev.1 = error)
      then (reconnected, None) else (connected, None)
  | connection_closed msg => (closed, msg)
  | connection_error msg => (error, msg)
  | connection_reconnected => (reconnected, None)
  | connection_reconnecting => (reconnecting, None)
  | worker_ready | event_received _ _ | pong => prev
  end.

End Table.

(** The hook's [state] read as a status of the specification. *)
Definition view (st : option SignalState) : Table.status * option string :=
  match st with
  | None => (Table.unset, None)
  | Some v =>
      (match status v with
       | connected => Table.connected
       | closed => Table.closed
       | error => Table.error
       | reconnected => Table.reconnected
       | reconnecting => Table.reconnecting
       end, message v)
  end.

(** The status-specific callback of a status, and whether the application
    gave a callback. *)
Definition specific (v : SignalState) : Call :=
  match status v with
  | connected => onConnected
  | reconnected => onReconnected
  | reconnecting => onReconnecting
  | closed => onClosed (message v)
  | error => onError (message v)
  end.

Definition given (o : Options) (c : Call) : bool :=
  match c with
  | onStatusChange _ => has_onStatusChange o
  | onConnected => has_onConnected o
  | onReconnected => has_onReconnected o
  | onReconnecting => has_onReconnecting o
  | onClosed _ => has_onClosed o
  | onError _ => has_onError o
  | listener _ _ _ => true
  end.

Definition is_listener_call (c : Call) : bool :=
  match c with listener _ _ _ => true | _ => false end.

(** The part of [St] no effect writes, and the part written only by the
    effect that creates the worker. *)
Definition core (s : St) :=
  (state s, stateVer s, accessToken s, options s, emitterRef s,
   deferredRef s, latches s, timeouts s, now s).

Definition react (s : St) := (worker s, ready s).

Definition timers (s : St) := (intervals s, timerRef s).

(** The token the reconnect poll runs with, when it has to run. *)
Definition polling (s : St) : option string :=
  if disconnected (state s) && ready s then truthy (accessToken s) else None.

(** What the reconnect poll has to look like in a state: one interval,
    held by [timerRef], carrying the current token and due within one
    period, when the poll has to run; no interval otherwise. *)
Definition poll_ok (s : St) : Prop :=
  match polling s with
  | Some token =>
      ∃ id due, intervals s = [mkInterval id token due]
                ∧ timerRef s = Some id
                ∧ now s ≤ due ≤ now s + poll_period
  | None => intervals s = []
  end.

(** The clean-up empties the list of intervals when it holds at most the
    interval of [timerRef]. *)
Definition poll_shape (s : St) : Prop :=
  intervals s = [] ∨ ∃ iv, intervals s = [iv] ∧ timerRef s = Some (iv_id iv).

(** The synchronisation the specification asks of the reconnect timer,
    read on a state: no timer while the status is connected, reconnected or
    reconnecting, and a timer whenever the status is disconnected and a
    credential is present. *)
Definition timer_synchronised (s : St) : Prop :=
  (disconnected (state s) = false → intervals s = [])
  ∧ (disconnected (state s) = true → is_Some (truthy (accessToken s)) →
     intervals s ≠ []).

(** What an event posts on the port. *)
Definition posted (e : Event) (s : St) : list PortMessage :=
  drop (length (outbox s)) (outbox (deliver e s)).

(** What the init effect posts for a render. *)
Definition init_posts (r : Render) : list PortMessage :=
  if r_worker r && r_ready r then
    match truthy (r_accessToken r) with
    | Some token => [post_connection_init token]
    | None => []
    end
  else [].

(** ** Scenarios *)

(** The worker answers, the connection is made, then a probe gets no
    [pong]: its timeout (the second timer of the page, after the first
    reconnect interval) fires 1000 ms after the visibility change. *)
Definition lost_worker_trace : list (Z * Event) :=
  [(10, ev_message worker_ready);
   (20, ev_message connection_ready);
   (100, ev_visibilitychange);
   (1100, ev_timeout 2)].

(** Two visibility changes 500 ms apart, neither probe answered yet: the
    first probe's timeout (timer 2) is due at 1100, the second probe's
    (timer 3) at 1600. *)
Definition overlapping_probes_trace : list (Z * Event) :=
  [(10, ev_message worker_ready);
   (20, ev_message connection_ready);
   (100, ev_visibilitychange);
   (600, ev_visibilitychange)].

(** ... then the first probe's timeout fires, and the worker answers 700 ms
    after the second probe. *)
Definition late_answer_trace : list (Z * Event) :=
  overlapping_probes_trace
  ++ [(1100, ev_timeout 2); (1300, ev_message pong)].

(** ** More of the hook *)

(** [options] not given, or given without callbacks. *)
Definition no_callbacks : Options := mkOptions false false false false false false.

(** The probe of [lost_worker_trace], 70 ms earlier. *)
Definition lost_worker_trace_short : list (Z * Event) :=
  [(10, ev_message worker_ready);
   (20, ev_message connection_ready);
   (30, ev_visibilitychange);
   (1030, ev_timeout 2)].

(** Every call made so far is a call of an emitter listener. *)
Definition state_calls_only_listeners (s : St) : Prop :=
  ∀ c, c ∈ calls s → is_listener_call c = true.

(** ** The closures the renders leave behind *)

(** The handler, the listeners and the functions that the hook installs or
    returns, each by the [worker] it closes over ([None]: not installed
    yet): the handler of [worker.port.onmessage] (lines 51-71), the
    [visibilitychange] listener (lines 92-112), the [beforeunload] listener
    (lines 115-125), the facade returned by [useMemo] (lines 151-195) and
    the debug functions [window.logSignal] and [window.ping] (lines
    165-188). *)
Record Closures := mkClosures {
  onmessage_set : bool;
  visibility_worker : option bool;
  unload_worker : option bool;
  facade_worker : option bool;
  debug_worker : option bool;
}.

Definition no_closures : Closures := mkClosures false None None None None.

(** One render and its commit.  [useMemo] on [[worker]] rebuilds the
    facade when [worker] differs from the previous render's, and installs
    the debug functions the first time only ([hasRunRef]); the effects on
    [[worker]] set the message handler when there is a worker and replace
    the [visibilitychange] listener; the effect on [[]] installs [unload]
    after the first render only. *)
Definition install (prev : option Render) (r : Render) (c : Closures) : Closures :=
  let w := changed prev r r_worker in
  mkClosures
    (if w && r_worker r then true else onmessage_set c)
    (if w then Some (r_worker r) else visibility_worker c)
    (if prev is None then Some (r_worker r) else unload_worker c)
    (if w then Some (r_worker r) else facade_worker c)
    (if w then (if debug_worker c is None then Some (r_worker r) else debug_worker c)
     else debug_worker c).

(** The closures along [rerender]: the render committed, and the render
    that follows when an effect has set state. *)
Definition rerender_closures (prev : option Render) (s : St) (c : Closures) : Closures :=
  let c1 := install prev (render s) c in
  let s1 := effects prev s in
  if decide (render s1 = render s) then c1
  else install (Some (render s)) (render s1) c1.

Definition mount_closures (token : option string) (o : Options) : Closures :=
  rerender_closures None (initial token o) no_closures.

Definition deliver_closures (e : Event) (s : St) (c : Closures) : Closures :=
  rerender_closures (Some (render s)) (handle e s) c.

(** The closures of a mounted hook, as the properties below show: the
    handler is set, the [visibilitychange] listener and the facade hold the
    worker, [unload] and the debug functions hold the [null] of the first
    render. *)
Definition settled_closures : Closures :=
  mkClosures true (Some true) (Some false) (Some true) (Some false).

(** A timed trace, with the closures. *)
Fixpoint run_closures (tr : list (Z * Event)) (s : St) (c : Closures)
    : option (St * Closures) :=
  match tr with
  | [] => Some (s, c)
  | te :: tr' =>
      match step te s with
      | Some s' => run_closures tr' s' (deliver_closures te.2 (with_now te.1 s) c)
      | None => None
      end
  end.

(** The one message of the port that the hook proper does not post. *)
Inductive TeardownMessage := post_beforeunload.

(** Modelled from the spec: [stop] of the class [EventEmitter], which is
    not part of the sources; the specification has the listeners cleared at
    teardown. *)
Definition EventEmitter_stop (e : EventEmitter.t) : EventEmitter.t := EventEmitter.empty.

(** [unload] (lines 116-119); [w] is the [worker] it closes over.  What it
    posts, and the state it leaves. *)
Definition unload (w : bool) (s : St) : list TeardownMessage * St :=
  (if w then [post_beforeunload] else [],
   with_emitter (EventEmitter_stop (emitterRef s)) s).

(** [window.logSignal(target, selector)] (lines 168-181).  [logs] is the
    module-level record, by the targets it marks; [logFn] is the handle of
    the function the call declares; [w] is the [worker] the [on] of the
    same [useMemo] run closes over. *)
Definition logSignal (w : bool) (target : string) (logFn : nat)
    (logs : gset string) (s : St) : gset string * St :=
  if decide (target ∈ logs) then (logs, s)
  else ({[target]} ∪ logs, on w target logFn s).

(** [window.ping()] (lines 183-186). *)
Definition window_ping (w : bool) (logFn : nat) (logs : gset string) (s : St)
    : gset string * St :=
  let '(logs1, s1) := logSignal w "pong" logFn logs s in
  (logs1, if w then postMessage post_ping s1 else s1).

(** * The session provider

    The accounts effect of [CivitaiSessionProvider] and the store of
    [Provider] and [useCivitaiSessionContext], which follow the hook in the
    same source file. *)

Module Accounts.

(** [type CivitaiAccount]. *)
Record CivitaiAccount := mkAccount {
  email : string;
  provider : string;
  active : bool;
}.

(** The account objects by address, and an accounts object
    ([Record<string, CivitaiAccount>]) as the addresses of its entries: the
    updater copies the accounts object but writes into the account objects
    it shares with the previous state. *)
Record Stored := mkStored {
  heap : list CivitaiAccount;
  accounts : gmap string nat;
}.

(** Every entry of the accounts object is an account object. *)
Definition wf (st : Stored) : Prop :=
  ∀ k l, accounts st !! k = Some l → (l < length (heap st))%nat.

(** What an accounts object holds, read through the heap. *)
Definition view (m : gmap string nat) (h : list CivitaiAccount)
    : gmap string CivitaiAccount :=
  omap (λ l, h !! l) m.

(** [old[k]['active'] = false]. *)
Definition deactivate (a : CivitaiAccount) : CivitaiAccount :=
  mkAccount (email a) (provider a) false.

(** [Object.keys(old).forEach((k) => { old[k]['active'] = false; })]. *)
Definition deactivate_all (old : gmap string nat) (h : list CivitaiAccount)
    : list CivitaiAccount :=
  foldl (λ h' l, alter deactivate l h') h (map_to_list old).*2.

(** The updater passed to [setAccounts]: [old] is a copy of the accounts
    object with the same account objects; the object returned has one new
    account object, for the user of the session. *)
Definition updater (userIdStr mail prov : string) (st : Stored) : Stored :=
  let old := accounts st in
  let h := deactivate_all old (heap st) in
  mkStored (h ++ [mkAccount mail prov true]) (<[userIdStr := length h]> old).

(** The effect on [[data, userAccounts]]: [userId] and [mail] are
    [data?.user?.id] and [data?.user?.email] ([None] when absent),
    [userAccounts] the providers of the accounts queried, and [toString]
    is [Number.prototype.toString]. *)
Definition accountsEffect (toString : Z → string) (userId : option Z)
    (mail : option string) (userAccounts : list string) (st : Stored) : Stored :=
  match userId, mail with
  | Some id, Some m =>
      if decide (id = 0 ∨ m = "") then st
      else match userAccounts with
           | [] => st
           | prov :: _ => updater (toString id) m prov st
           end
  | _, _ => st
  end.

End Accounts.

Module SessionStore.

(** The store of [Provider].  A value of a field is text, or [None] for
    [undefined]; values are compared as [!==] compares them (there is no
    [NaN] among them).  [current] is [state.current] ([None]: [null]),
    [listeners] the set of listeners in the order they were added (by
    handle), [proxy] whether the [proxy] state is set, and [notified] the
    calls [listener(key, value)] made so far. *)
Record Provider := mkProvider {
  current : option (gmap string (option string));
  listeners : list nat;
  proxy : bool;
  notified : list (nat * string * option string);
}.

(** [object[key]]. *)
Definition read (m : gmap string (option string)) (key : string) : option string :=
  default None (m !! key).

(** The object whose [Object.entries] are [entries]. *)
Definition object_of (entries : list (string * option string))
    : gmap string (option string) :=
  list_to_map entries.

(** One turn of the loop over [Object.entries(value)]. *)
Definition sync_entry (ls : list nat)
    (acc : gmap string (option string) * list (nat * string * option string))
    (kv : string * option string)
    : gmap string (option string) * list (nat * string * option string) :=
  if decide (read acc.1 kv.1 ≠ kv.2)
  then (<[kv.1 := kv.2]> acc.1, acc.2 ++ ((λ f, (f, kv.1, kv.2)) <$> ls))
  else acc.

(** The effect on [[value]]; [value] is [None] for [null], and the entries
    of the object otherwise.  When [state.current] is [null] it becomes the
    value object itself. *)
Definition valueEffect (value : option (list (string * option string)))
    (p : Provider) : Provider :=
  match value with
  | None => p
  | Some entries =>
      let cur0 := default (object_of entries) (current p) in
      let acc := foldl (sync_entry (listeners p)) (cur0, notified p) entries in
      mkProvider (Some acc.1) (listeners p) true acc.2
  end.

(** The calls the loop makes when the store holds [cur]: for every entry
    whose value differs from the stored one, in the order of the entries,
    every listener in the order of subscription. *)
Definition notifications (ls : list nat) (cur : gmap string (option string))
    (entries : list (string * option string))
    : list (nat * string * option string) :=
  filter (λ kv, read cur kv.1 ≠ kv.2) entries
  ≫= (λ kv, (λ f, (f, kv.1, kv.2)) <$> ls).

(** The first render: [useRef(value)], an empty set of listeners and
    [useState(value ? createProxy() : null)]. *)
Definition first_render (value : option (list (string * option string))) : Provider :=
  mkProvider (object_of <$> value) [] (bool_decide (is_Some value)) [].

(** [subscribe(listener)], and the function it returns. *)
Definition subscribe (f : nat) (p : Provider) : Provider :=
  mkProvider (current p)
    (if decide (f ∈ listeners p) then listeners p else listeners p ++ [f])
    (proxy p) (notified p).

Definition unsubscribe (f : nat) (p : Provider) : bool * Provider :=
  (bool_decide (f ∈ listeners p),
   mkProvider (current p) (filter (λ g, g ≠ f) (listeners p)) (proxy p) (notified p)).

(** [get] of the provider's proxy: [state.current?.[key]]. *)
Definition session_get (p : Provider) (key : string) : option string :=
  match current p with
  | Some m => read m key
  | None => None
  end.

(** One user of [useCivitaiSessionContext]: the keys it has read through
    its proxy, whether [context.state] was set at its first render (the
    [state] its proxy closes over), and how often it asked to render
    again. *)
Record Consumer := mkConsumer {
  tracked : gset string;
  first_state : bool;
  rerenders : nat;
}.

(** The first render of the hook; [None] is the error thrown without a
    context. *)
Definition first_use (context : option Provider) : option Consumer :=
  match context with
  | None => None
  | Some p => Some (mkConsumer ∅ (proxy p) 0)
  end.

(** [get] of the consumer's proxy. *)
Definition consumer_get (key : string) (p : Provider) (c : Consumer)
    : option string * Consumer :=
  (if first_state c then session_get p key else None,
   mkConsumer ({[key]} ∪ tracked c) (first_state c) (rerenders c)).

(** The listener the consumer subscribes. *)
Definition consumer_listener (key : string) (c : Consumer) : Consumer :=
  if decide (key ∈ tracked c)
  then mkConsumer (tracked c) (first_state c) (S (rerenders c))
  else c.

(** The calls of the consumer's listener, subscribed under the handle [f],
    among the notifications [log]. *)
Definition consumer_notified (f : nat) (log : list (nat * string * option string))
    (c : Consumer) : Consumer :=
  foldl (λ c' n, if decide (n.1.1 = f) then consumer_listener n.1.2 c' else c') c log.

End SessionStore.

(** * Properties *)

#[local] Arguments deliver : simpl never.
#[local] Arguments rerender : simpl never.
#[local] Arguments effects : simpl never.

(** ** What the effects leave alone *)

Lemma run_effect_pres {A} (proj : St → A) go f s :
  (∀ x, proj (f x) = proj x) → proj (run_effect go f s) = proj s.
Proof. intros H. unfold run_effect. destruct go; auto. Qed.

Lemma workerEffect_core r s : core (workerEffect r s) = core s.
Proof. unfold workerEffect. by destruct (r_worker r). Qed.

Lemma initEffect_core r s : core (initEffect r s) = core s.
Proof. unfold initEffect. by repeat case_match. Qed.

Lemma pollCleanup_core s : core (pollCleanup s) = core s.
Proof. unfold pollCleanup. by case_match. Qed.

Lemma pollEffect_core r s : core (pollEffect r s) = core s.
Proof. unfold pollEffect, setInterval. by repeat case_match. Qed.

Lemma effects_core p s : core (effects p s) = core s.
Proof.
  unfold effects.
  rewrite run_effect_pres.
  2:{ intros x. rewrite pollEffect_core. destruct p; [apply pollCleanup_core | done]. }
  rewrite run_effect_pres by apply initEffect_core.
  rewrite run_effect_pres by done.
  apply run_effect_pres, workerEffect_core.
Qed.

Lemma rerender_core p s : core (rerender p s) = core s.
Proof. unfold rerender. case_decide; rewrite ?effects_core; done. Qed.

Lemma initEffect_react r s : react (initEffect r s) = react s.
Proof. unfold initEffect. by repeat case_match. Qed.

Lemma pollCleanup_react s : react (pollCleanup s) = react s.
Proof. unfold pollCleanup. by case_match. Qed.

Lemma pollEffect_react r s : react (pollEffect r s) = react s.
Proof. unfold pollEffect, setInterval. by repeat case_match. Qed.

(** Once the worker exists, the effects set no state. *)
Lemma effects_react p s : worker s = true → react (effects p s) = react s.
Proof.
  intros Hw. unfold effects.
  rewrite run_effect_pres.
  2:{ intros x. rewrite pollEffect_react. destruct p; [apply pollCleanup_react | done]. }
  rewrite run_effect_pres by apply initEffect_react.
  rewrite run_effect_pres by done.
  apply run_effect_pres. intros x. unfold workerEffect. simpl. by rewrite Hw.
Qed.

Lemma effects_render p s : worker s = true → render (effects p s) = render s.
Proof.
  intros Hw. pose proof (effects_core p s) as Hc.
  pose proof (effects_react p s Hw) as Hr.
  unfold core, react in *. unfold render.
  injection Hc as ?????????. injection Hr as ??. congruence.
Qed.

Lemma rerender_steady p s : worker s = true → rerender p s = effects p s.
Proof.
  intros Hw. unfold rerender. rewrite effects_render by done.
  by rewrite decide_True.
Qed.

Lemma rerender_react p s : worker s = true → react (rerender p s) = react s.
Proof. intros Hw. rewrite rerender_steady by done. by apply effects_react. Qed.

Lemma state_rerender p s : state (rerender p s) = state s.
Proof. exact (f_equal (λ c, c.1.1.1.1.1.1.1.1) (rerender_core p s)). Qed.

Lemma accessToken_rerender p s : accessToken (rerender p s) = accessToken s.
Proof. exact (f_equal (λ c, c.1.1.1.1.1.1.2) (rerender_core p s)). Qed.

Lemma options_rerender p s : options (rerender p s) = options s.
Proof. exact (f_equal (λ c, c.1.1.1.1.1.2) (rerender_core p s)). Qed.

Lemma emitterRef_rerender p s : emitterRef (rerender p s) = emitterRef s.
Proof. exact (f_equal (λ c, c.1.1.1.1.2) (rerender_core p s)). Qed.

Lemma timeouts_rerender p s : timeouts (rerender p s) = timeouts s.
Proof. exact (f_equal (λ c, c.1.2) (rerender_core p s)). Qed.

Lemma now_effects p s : now (effects p s) = now s.
Proof. exact (f_equal (λ c, c.2) (effects_core p s)). Qed.

Lemma worker_handle e s : worker (handle e s) = worker s.
Proof.
  destruct e; simpl; try done.
  - destruct (worker s) eqn:Hw; [|done].
    destruct data; simpl; try done.
    unfold resolve_current. by repeat case_match.
  - unfold handleVisibilityChange, setTimeout. destruct (worker s) eqn:Hw; simpl; by rewrite ?Hw.
  - unfold timeout_fires, reject_current. by repeat case_match.
  - unfold interval_fires. by repeat case_match.
  - unfold send. by case_match.
  - unfold on. by case_match.
Qed.

Lemma worker_deliver e s : worker s = true → worker (deliver e s) = true.
Proof.
  intros Hw. unfold deliver.
  pose proof (rerender_react (Some (render s)) (handle e s)) as H.
  rewrite worker_handle in H. specialize (H Hw).
  unfold react in H. rewrite worker_handle in H. injection H as H1 H2. congruence.
Qed.

Lemma state_deliver e s : state (deliver e s) = state (handle e s).
Proof. apply state_rerender. Qed.

(** ** C1: the status is the fold of the transition table *)

Lemma state_resolve_current s : state (resolve_current s) = state s.
Proof. unfold resolve_current. by repeat case_match. Qed.

Lemma onmessage_table m s :
  view (state (onmessage m s)) = Table.transition (view (state s)) m.
Proof.
  destruct m; simpl; try done.
  - by destruct (state s) as [[st msg]|]; [destruct st|].
  - by rewrite state_resolve_current.
Qed.

Lemma handle_message m s :
  worker s = true → handle (ev_message m) s = onmessage m s.
Proof. intros Hw. unfold handle. by rewrite Hw. Qed.

(** C1.  For every finite sequence of inbound messages delivered to a hook
    whose worker exists, in the order of arrival and with the renders and
    effects in between, the status the handler computes is the left fold of
    the transition table of section 4.2 over the sequence.  In particular
    [connection:ready] gives [reconnected] when the previous status is
    [closed] or [error], and [connected] from any other one, the unset one
    included. *)
Theorem status_is_fold_of_table (ms : list WorkerOutgoingMessage) (s : St) :
  worker s = true →
  view (state (deliver_messages ms s)) = foldl Table.transition (view (state s)) ms
  ∧ (view (state (deliver (ev_message connection_ready) s))).1
    = (if decide ((view (state s)).1 = Table.closed ∨ (view (state s)).1 = Table.error)
       then Table.reconnected else Table.connected).
Proof.
  intros Hw. split.
  - unfold deliver_messages. revert s Hw.
    induction ms as [|m ms IH]; intros s Hw; [done|].
    simpl. rewrite IH by by apply worker_deliver.
    f_equal. rewrite state_deliver, handle_message by done. apply onmessage_table.
  - rewrite state_deliver, handle_message, onmessage_table by done.
    unfold Table.transition. by case_decide.
Qed.

Lemma status_is_fold_of_table_witness :
  let s := mount (Some "token") all_callbacks in
  let ms := [worker_ready; connection_ready; connection_error (Some "boom");
             pong; connection_ready] in
  view (state (deliver_messages ms s)) = (Table.reconnected, None).
Proof.
  intros s ms.
  destruct (status_is_fold_of_table ms s) as [H _]; [vm_compute; reflexivity|].
  rewrite H. vm_compute. reflexivity.
Defined.

(** ** C4: the callbacks of a status entry *)

Lemma initEffect_calls r s :
  calls (initEffect r s) = calls s ∧ options (initEffect r s) = options s.
Proof. unfold initEffect. by repeat case_match. Qed.

Lemma pollCleanup_calls s :
  calls (pollCleanup s) = calls s ∧ options (pollCleanup s) = options s.
Proof. unfold pollCleanup. by case_match. Qed.

Lemma pollEffect_calls r s :
  calls (pollEffect r s) = calls s ∧ options (pollEffect r s) = options s.
Proof. unfold pollEffect, setInterval. by repeat case_match. Qed.

Lemma workerEffect_calls r s :
  calls (workerEffect r s) = calls s ∧ options (workerEffect r s) = options s.
Proof. unfold workerEffect. by case_match. Qed.

Lemma calls_effects p s :
  calls (effects p s)
  = calls s ++ (if changed p (render s) r_stateVer
                then statusEffect (options s) (state s) else []).
Proof.
  unfold effects.
  rewrite run_effect_pres.
  2:{ intros x. rewrite (proj1 (pollEffect_calls _ _)).
      destruct p; [apply pollCleanup_calls | done]. }
  rewrite run_effect_pres by apply initEffect_calls.
  unfold run_effect at 1.
  destruct (changed p (render s) r_stateVer); simpl.
  - rewrite !run_effect_pres by apply workerEffect_calls. done.
  - rewrite run_effect_pres by apply workerEffect_calls. by rewrite app_nil_r.
Qed.

Lemma statusEffect_given o v :
  statusEffect o (Some v)
  = filter (λ c, given o c = true) [onStatusChange v; specific v].
Proof.
  unfold statusEffect, specific, optional_call.
  destruct o as [[] [] [] [] [] []], (status v); reflexivity.
Qed.

Lemma reject_current_entry s :
  stateVer (reject_current s) ≠ stateVer s →
  state (reject_current s) = Some (mkSignalState closed (Some lost_message))
  ∧ ready (reject_current s) = false
  ∧ calls (reject_current s) = calls s ∧ options (reject_current s) = options s.
Proof. unfold reject_current. repeat case_match; simpl; naive_solver. Qed.

(** A handler that stores a status stores one, and calls nothing itself. *)
Lemma handle_entry e s :
  stateVer (handle e s) ≠ stateVer s →
  ∃ v, state (handle e s) = Some v
       ∧ calls (handle e s) = calls s ∧ options (handle e s) = options s.
Proof.
  destruct e; simpl.
  - destruct (worker s); [|done]. destruct data; simpl; try done; eauto.
    unfold resolve_current. repeat case_match; simpl; done.
  - unfold handleVisibilityChange, setTimeout. destruct (worker s); simpl; done.
  - unfold timeout_fires. intros H.
    destruct (reject_current_entry (clearTimeout id s) H) as (?&?&?&?). eauto.
  - unfold interval_fires. repeat case_match; simpl; done.
  - done.
  - unfold send. case_match; simpl; done.
  - unfold on. case_match; simpl; done.
  - done.
Qed.

(** C4.  On every entry into a status (an event whose handler stores a
    status in [state]), the calls made are [onStatusChange] with the whole
    status message and then the status-specific callback of the new status,
    each when the application gave it: with all callbacks given, exactly these
    two calls in this order.  [onClosed] and [onError] receive the message
    carried by the status. *)
Theorem status_entry_callbacks (e : Event) (s : St) :
  worker s = true → stateVer (handle e s) ≠ stateVer s →
  ∃ v, state (deliver e s) = Some v
     ∧ calls (deliver e s)
       = calls s ++ filter (λ c, given (options s) c = true)
                      [onStatusChange v; specific v]
     ∧ (options s = all_callbacks →
        calls (deliver e s) = calls s ++ [onStatusChange v; specific v])
     ∧ (status v = closed → specific v = onClosed (message v))
     ∧ (status v = error → specific v = onError (message v)).
Proof.
  intros Hw Hver.
  destruct (handle_entry e s Hver) as (v & Hst & Hcalls & Hopt).
  exists v.
  assert (calls (deliver e s)
          = calls s ++ filter (λ c, given (options s) c = true)
                         [onStatusChange v; specific v]) as Hc.
  { unfold deliver. rewrite rerender_steady by by rewrite worker_handle.
    rewrite calls_effects. simpl.
    rewrite bool_decide_true by (simpl; congruence).
    by rewrite Hcalls, Hopt, Hst, statusEffect_given. }
  split_and!.
  - by rewrite state_deliver.
  - done.
  - intros Ho. rewrite Hc, Ho. unfold specific. by destruct (status v).
  - unfold specific. by intros ->.
  - unfold specific. by intros ->.
Qed.

Lemma status_entry_callbacks_witness :
  let s := mount (Some "token") all_callbacks in
  let e := ev_message (connection_closed (Some "x")) in
  worker s = true ∧ stateVer (handle e s) ≠ stateVer s ∧
  calls (deliver e s)
  = [onStatusChange (mkSignalState closed (Some "x")); onClosed (Some "x")].
Proof.
  intros s e.
  assert (worker s = true) as Hw by (vm_compute; reflexivity).
  assert (stateVer (handle e s) ≠ stateVer s) as Hv by (vm_compute; discriminate).
  split_and!; [exact Hw | exact Hv |].
  destruct (status_entry_callbacks e s Hw Hv) as (v & Hst & _ & Hc & _).
  rewrite Hc by (vm_compute; reflexivity).
  vm_compute in Hst. injection Hst as <-. vm_compute. reflexivity.
Defined.

(** ** Renders that change nothing *)

Lemma effects_unchanged s : effects (Some (render s)) s = s.
Proof.
  unfold effects, changed.
  rewrite !bool_decide_false by (intros H; by apply H).
  reflexivity.
Qed.

Lemma rerender_unchanged r s : render s = r → rerender (Some r) s = s.
Proof.
  intros <-. unfold rerender. rewrite effects_unchanged.
  by rewrite decide_True.
Qed.

(** ** C9: [send] *)

(** C9.  [send(target, args)] posts exactly [{type:'send', target, args}]
    on the port of the worker and touches nothing else; without a worker it
    does nothing, and so do the post of [on] and the ping of the probe.
    Delivered as an event, [send] is followed by no effect. *)
Theorem send_posts_exactly (target args : string) (cb : nat) (s : St) :
  send true target args s = postMessage (post_send target args) s
  ∧ outbox (send true target args s) = outbox s ++ [post_send target args]
  ∧ (core (send true target args s), react (send true target args s),
     calls (send true target args s), intervals (send true target args s))
    = (core s, react s, calls s, intervals s)
  ∧ send false target args s = s
  ∧ outbox (on false target cb s) = outbox s
  ∧ outbox (handleVisibilityChange false s) = outbox s
  ∧ deliver (ev_send target args) s = send (worker s) target args s.
Proof.
  split_and!; try reflexivity.
  unfold deliver. apply rerender_unchanged.
  simpl. unfold send. by destruct (worker s).
Qed.

(** ** C7: [on], [off] and the events received *)

Section Emitter.

Import EventEmitter.

Lemma callbacks_on target cb e t :
  callbacks (EventEmitter.on target cb e) t
  = if decide (target = t) then callbacks e t ∪ {[cb]} else callbacks e t.
Proof.
  unfold EventEmitter.on, callbacks at 1. rewrite lookup_insert.
  case_decide; by simplify_eq.
Qed.

Lemma callbacks_off target cb e t :
  callbacks (EventEmitter.off target cb e) t
  = if decide (target = t) then callbacks e t ∖ {[cb]} else callbacks e t.
Proof.
  unfold EventEmitter.off, callbacks at 1. rewrite lookup_insert.
  case_decide; by simplify_eq.
Qed.

Lemma off_removes target cb e : cb ∉ callbacks (EventEmitter.off target cb e) target.
Proof.
  rewrite callbacks_off, decide_True by done.
  intros [_ Hn]%elem_of_difference. apply Hn. by apply elem_of_singleton.
Qed.

Lemma off_keeps target cb cb2 e :
  cb ≠ cb2 → cb2 ∈ callbacks e target →
  cb2 ∈ callbacks (EventEmitter.off target cb e) target.
Proof.
  intros Hne Hin. rewrite callbacks_off, decide_True by done.
  apply elem_of_difference. split; [done|].
  intros ?%elem_of_singleton. congruence.
Qed.

Lemma on_adds target cb e : cb ∈ callbacks (EventEmitter.on target cb e) target.
Proof.
  rewrite callbacks_on, decide_True by done.
  apply elem_of_union_r. by apply elem_of_singleton.
Qed.

Lemma on_keeps target cb cb2 e t :
  cb2 ∈ callbacks e t → cb2 ∈ callbacks (EventEmitter.on target cb e) t.
Proof.
  intros Hin. rewrite callbacks_on. case_decide; [|done].
  by apply elem_of_union_l.
Qed.

Lemma elem_of_emit c target payload e :
  c ∈ emit target payload e
  ↔ ∃ cb, c = listener target cb payload ∧ cb ∈ callbacks e target.
Proof.
  unfold emit. rewrite list_elem_of_fmap.
  split; intros (cb & ? & ?); exists cb; by rewrite ?elem_of_elements in *.
Qed.

Lemma NoDup_emit target payload e : NoDup (emit target payload e).
Proof.
  unfold emit. apply NoDup_fmap_2; [|apply NoDup_elements].
  intros ?? [=]. done.
Qed.

End Emitter.

Lemma emitterRef_on w target cb s :
  emitterRef (on w target cb s) = EventEmitter.on target cb (emitterRef s).
Proof. unfold on. by destruct w. Qed.

Lemma emitterRef_off target cb s :
  emitterRef (off target cb s) = EventEmitter.off target cb (emitterRef s).
Proof. done. Qed.

Lemma emitterRef_deliver_message m s :
  emitterRef (deliver (ev_message m) s) = emitterRef s.
Proof.
  unfold deliver.
  rewrite emitterRef_rerender.
  simpl. destruct (worker s); [|done].
  destruct m; try done. simpl.
  unfold resolve_current. by repeat case_match.
Qed.

Lemma statusEffect_no_listener o st c :
  c ∈ statusEffect o st → is_listener_call c = false.
Proof.
  destruct st as [v|]; [|by intros ?%elem_of_nil].
  rewrite statusEffect_given.
  intros [_ [->|[->|[]%elem_of_nil]%elem_of_cons]%elem_of_cons]%list_elem_of_filter.
  - done.
  - unfold specific. by destruct (status v).
Qed.

Lemma statusEffect_if_no_listener (b : bool) o st c :
  c ∈ (if b then statusEffect o st else []) → is_listener_call c = false.
Proof. destruct b; [apply statusEffect_no_listener | by intros ?%elem_of_nil]. Qed.

Lemma calls_resolve_current s : calls (resolve_current s) = calls s.
Proof. unfold resolve_current. by repeat case_match. Qed.

(** The calls one delivered message adds: the listeners of an event
    received, then the callbacks of a status entry. *)
Lemma calls_deliver_message m s :
  ∃ status_calls,
    calls (deliver (ev_message m) s)
    = calls s
      ++ (if worker s then
            match m with
            | event_received target payload =>
                EventEmitter.emit target payload (emitterRef s)
            | _ => []
            end
          else [])
      ++ status_calls
    ∧ ∀ c, c ∈ status_calls → is_listener_call c = false.
Proof.
  unfold deliver, rerender.
  set (s' := handle (ev_message m) s).
  assert (calls s' = calls s
      ++ (if worker s then
            match m with
            | event_received target payload =>
                EventEmitter.emit target payload (emitterRef s)
            | _ => []
            end
          else [])) as Hs'.
  { subst s'. simpl. destruct (worker s); [|by rewrite app_nil_r].
    destruct m; simpl; rewrite ?app_nil_r; try done.
    apply calls_resolve_current. }
  case_decide.
  - rewrite calls_effects, Hs', <-app_assoc.
    eexists; split; [done|].
    apply statusEffect_if_no_listener.
  - rewrite !calls_effects, Hs', <-!app_assoc.
    eexists; split; [done|].
    intros c [Hc|Hc]%elem_of_app; by apply statusEffect_if_no_listener in Hc.
Qed.

Lemma calls_deliver_messages ms s :
  ∃ added,
    calls (deliver_messages ms s) = calls s ++ added
    ∧ ∀ target cb payload,
        listener target cb payload ∈ added →
        cb ∈ EventEmitter.callbacks (emitterRef s) target.
Proof.
  unfold deliver_messages. revert s.
  induction ms as [|m ms IH]; intros s; simpl.
  - exists []. split; [by rewrite app_nil_r | by intros ??? ?%elem_of_nil].
  - destruct (IH (deliver (ev_message m) s)) as (added & -> & Hadded).
    destruct (calls_deliver_message m s) as (sc & -> & Hsc).
    eexists. rewrite <-!app_assoc. split; [done|].
    intros target cb payload [Hin|[Hin|Hin]%elem_of_app]%elem_of_app.
    + destruct (worker s); [|by apply elem_of_nil in Hin].
      destruct m; try by apply elem_of_nil in Hin.
      apply elem_of_emit in Hin as (cb' & [= -> -> ->] & ?). done.
    + by apply Hsc in Hin.
    + apply Hadded in Hin. by rewrite emitterRef_deliver_message in Hin.
Qed.

(** C7.  After [on(target, cb)] followed by [off(target, cb)], whatever
    messages arrive afterwards add no call of [cb] for [target]; a second
    callback registered on the same target by a separate [on] receives an
    event of that target once after the first is removed; and [off] posts
    nothing to the worker. *)
Theorem off_removes_only_its_callback (w1 w2 : bool) (target payload : string)
    (cb cb2 : nat) (ms : list WorkerOutgoingMessage) (s : St) :
  worker s = true → cb ≠ cb2 →
  let s1 := off target cb (on w1 target cb s) in
  let s2 := off target cb (on w1 target cb (on w2 target cb2 s)) in
  let s3 := off target cb (on w2 target cb2 (on w1 target cb s)) in
  (∃ added, calls (deliver_messages ms s1) = calls s1 ++ added
            ∧ ∀ p, listener target cb p ∉ added)
  ∧ (∀ sx, sx = s2 ∨ sx = s3 →
     ∃ added,
       calls (deliver (ev_message (event_received target payload)) sx)
       = calls sx ++ added
       ∧ NoDup added
       ∧ listener target cb2 payload ∈ added
       ∧ listener target cb payload ∉ added)
  ∧ outbox (off target cb s) = outbox s.
Proof.
  intros Hw Hne s1 s2 s3. split_and!.
  - destruct (calls_deliver_messages ms s1) as (added & Hc & Hadded).
    exists added. split; [done|].
    intros p Hin%Hadded. subst s1.
    rewrite emitterRef_off in Hin. by apply off_removes in Hin.
  - intros sx Hsx.
    exists (EventEmitter.emit target payload (emitterRef sx)).
    assert (worker sx = true) as Hwx.
    { destruct Hsx as [-> | ->]; subst s2 s3; simpl;
        by destruct w1, w2. }
    split_and!.
    + unfold deliver. rewrite rerender_unchanged; [by simpl; rewrite Hwx|].
      simpl. by rewrite Hwx.
    + apply NoDup_emit.
    + apply elem_of_emit. exists cb2. split; [done|].
      destruct Hsx as [-> | ->]; subst s2 s3;
        rewrite emitterRef_off, !emitterRef_on; apply off_keeps; try done.
      * apply on_keeps, on_adds.
      * apply on_adds.
    + intros (cb' & [= <-] & Hin)%elem_of_emit.
      destruct Hsx as [-> | ->]; subst s2 s3;
        rewrite emitterRef_off in Hin; by apply off_removes in Hin.
  - reflexivity.
Qed.

(** ** Reachable states *)

Lemma run_invariant (P : St → Prop) :
  (∀ s te s', P s → step te s = Some s' → P s') →
  ∀ tr s s', P s → run tr s = Some s' → P s'.
Proof.
  intros Hstep. induction tr as [|te tr IH]; intros s s' HP Hrun; simpl in Hrun.
  - by simplify_eq.
  - destruct (step te s) as [s1|] eqn:Hs; [|done]. eauto.
Qed.

Lemma reachable_ind (P : St → Prop) :
  (∀ token o, P (mount token o)) →
  (∀ s t e, P s → admissible t e s = true → P (deliver e (with_now t s))) →
  ∀ s, reachable s → P s.
Proof.
  intros Hmount Hstep s (token & o & tr & Hrun).
  eapply run_invariant; [|apply (Hmount token o)|exact Hrun].
  intros s1 [t e] s2 HP Hs. unfold step in Hs. simpl in Hs.
  destruct (admissible t e s1) eqn:Ha; [|done]. simplify_eq. by apply Hstep.
Qed.

Lemma mount_eq token o :
  mount token o
  = mkSt token o None 0%nat false true EventEmitter.empty 0%nat None
      [mkDeferred pending None] 0 1%positive [] [] [] [].
Proof.
  unfold mount, rerender.
  assert (effects None (initial token o)
          = mkSt token o None 0%nat false true EventEmitter.empty 0%nat None
              [mkDeferred pending None] 0 1%positive [] [] [] []) as ->
    by reflexivity.
  destruct (decide _) as [Heq|_]; [by inversion Heq|].
  unfold effects, changed.
  rewrite (bool_decide_true (r_worker _ ≠ _)) by (simpl; congruence).
  rewrite (bool_decide_false (r_stateVer _ ≠ _)) by (simpl; congruence).
  rewrite !bool_decide_true by (unfold init_deps, poll_deps; simpl; congruence).
  reflexivity.
Qed.

Lemma worker_mount token o : worker (mount token o) = true.
Proof. by rewrite mount_eq. Qed.

Lemma reachable_worker s : reachable s → worker s = true.
Proof.
  revert s. apply reachable_ind.
  - apply worker_mount.
  - intros s t e Hw _. by apply worker_deliver.
Qed.

(** ** C10: no status is delivered before there is one *)

Lemma calls_rerender p s :
  ∃ b1 b2 : bool,
    calls (rerender p s)
    = calls s ++ (if b1 then statusEffect (options s) (state s) else [])
              ++ (if b2 then statusEffect (options s) (state s) else []).
Proof.
  unfold rerender. case_decide.
  - rewrite calls_effects. eexists _, false. by rewrite app_nil_r.
  - rewrite !calls_effects.
    pose proof (effects_core p s) as Hc. unfold core in Hc.
    injection Hc as -> _ _ -> _ _ _ _ _.
    eexists _, _. by rewrite <-app_assoc.
Qed.

Lemma calls_handle e s :
  ∃ ls, calls (handle e s) = calls s ++ ls
        ∧ ∀ c, c ∈ ls → is_listener_call c = true.
Proof.
  assert (∀ x, calls x = calls s →
    ∃ ls, calls x = calls s ++ ls ∧ ∀ c, c ∈ ls → is_listener_call c = true) as Hsame.
  { intros x ->. exists []. split; [by rewrite app_nil_r | by intros ? ?%elem_of_nil]. }
  destruct e; simpl; try by apply Hsame.
  - destruct (worker s); [|by apply Hsame].
    destruct data; try by apply Hsame.
    + eexists. split; [done|]. by intros c (cb & -> & _)%elem_of_emit.
    + apply Hsame, calls_resolve_current.
  - apply Hsame. unfold handleVisibilityChange, setTimeout. by destruct (worker s).
  - apply Hsame. unfold timeout_fires, reject_current. by repeat case_match.
  - apply Hsame. unfold interval_fires. by repeat case_match.
  - apply Hsame. unfold send. by case_match.
  - apply Hsame. unfold on. by case_match.
Qed.

Lemma state_handle_None e s : state (handle e s) = None → state s = None.
Proof.
  destruct e; simpl; try done.
  - destruct (worker s); [|done]. destruct data; try done.
    by rewrite state_resolve_current.
  - unfold handleVisibilityChange, setTimeout. by destruct (worker s).
  - unfold timeout_fires, reject_current. by repeat case_match.
  - unfold interval_fires. by repeat case_match.
  - unfold send. by case_match.
  - unfold on. by case_match.
Qed.

(** C10.  In every reachable state without a status (the unset one), the
    only calls made so far are calls of emitter listeners: neither
    [onStatusChange] nor a status-specific callback has been called.  The
    status effect calls nothing when there is no status, and every status
    ever handed to [onStatusChange] is one of the five of [SignalStatus]. *)
Theorem unset_is_never_delivered (s : St) :
  reachable s →
  (state s = None → ∀ c, c ∈ calls s → is_listener_call c = true)
  ∧ statusEffect (options s) None = []
  ∧ ∀ v, onStatusChange v ∈ calls s →
         status v ∈ [connected; closed; error; reconnected; reconnecting].
Proof.
  intros Hr. split_and!.
  - revert s Hr.
    apply (reachable_ind
             (λ s, state s = None → ∀ c, c ∈ calls s → is_listener_call c = true)).
    + intros token o _ c Hin. rewrite mount_eq in Hin. by apply elem_of_nil in Hin.
    + intros s t e IH _ Hnone c Hin.
      rewrite state_deliver in Hnone.
      unfold deliver in Hin.
      destruct (calls_rerender (Some (render (with_now t s)))
                  (handle e (with_now t s))) as (b1 & b2 & Hc).
      rewrite Hc, Hnone in Hin. simpl in Hin.
      replace (if b1 then [] else []) with (@nil Call) in Hin by by destruct b1.
      replace (if b2 then [] else []) with (@nil Call) in Hin by by destruct b2.
      rewrite !app_nil_r in Hin.
      destruct (calls_handle e (with_now t s)) as (ls & Hls & Hlisteners).
      rewrite Hls in Hin. apply elem_of_app in Hin as [Hin|Hin].
      * apply state_handle_None in Hnone. by apply IH.
      * by apply Hlisteners.
  - reflexivity.
  - intros v _. destruct (status v); set_solver.
Qed.

Lemma unset_is_never_delivered_witness :
  let s := deliver (ev_message (event_received "t" "p"))
             (deliver (ev_on "t" 7%nat) (mount (Some "token") all_callbacks)) in
  reachable s ∧ state s = None ∧ calls s = [listener "t" 7%nat "p"]
  ∧ ∀ c, c ∈ calls s → is_listener_call c = true.
Proof.
  intros s.
  assert (reachable s) as Hr.
  { exists (Some "token"), all_callbacks,
      [(0, ev_on "t" 7%nat); (0, ev_message (event_received "t" "p"))].
    vm_compute. reflexivity. }
  split_and!; [exact Hr | vm_compute; reflexivity | vm_compute; reflexivity |].
  apply (unset_is_never_delivered s Hr). vm_compute. reflexivity.
Defined.

(** ** The reconnect poll follows the disconnected predicate *)

Lemma initEffect_timers r s : timers (initEffect r s) = timers s.
Proof. unfold initEffect. by repeat case_match. Qed.

Lemma workerEffect_timers r s : timers (workerEffect r s) = timers s.
Proof. unfold workerEffect. by case_match. Qed.

Lemma initEffect_now r s : now (initEffect r s) = now s.
Proof. unfold initEffect. by repeat case_match. Qed.

Lemma workerEffect_now r s : now (workerEffect r s) = now s.
Proof. unfold workerEffect. by case_match. Qed.

Lemma polling_deps a b :
  poll_deps (render a) = poll_deps (render b) → polling a = polling b.
Proof. unfold poll_deps, polling. simpl. by intros [= -> -> _ ->]. Qed.

Lemma polling_render a b : render a = render b → polling a = polling b.
Proof. intros H. apply polling_deps. by rewrite H. Qed.

Lemma poll_ok_shape s : poll_ok s → poll_shape s.
Proof.
  unfold poll_ok, poll_shape. destruct (polling s); [|by left].
  intros (id & due & -> & -> & _). right. by eexists.
Qed.

(** The clean-up followed by the body of the poll effect. *)
Lemma poll_stage r x :
  r_worker r = true → poll_shape x →
  let y := pollEffect r (pollCleanup x) in
  match (if disconnected (r_state r) && r_ready r
         then truthy (r_accessToken r) else None) with
  | Some token =>
      ∃ id, intervals y = [mkInterval id token (now x + poll_period)]
            ∧ timerRef y = Some id
  | None => intervals y = []
  end.
Proof.
  intros Hw Hshape.
  assert (intervals (pollCleanup x) = []
          ∧ timerRef (pollCleanup x) = timerRef x
          ∧ now (pollCleanup x) = now x) as (Hi & Ht & Hn).
  { unfold pollCleanup.
    destruct Hshape as [Hnil | (iv & Hiv & Href)].
    - destruct (timerRef x) eqn:E; simpl; rewrite ?Hnil; done.
    - rewrite Href. simpl. rewrite Hiv.
      rewrite filter_cons_False by (intros H; by apply H). done. }
  simpl. unfold pollEffect, setInterval. rewrite Hw.
  destruct (disconnected (r_state r)), (r_ready r); simpl.
  - rewrite Hn. destruct (truthy (r_accessToken r)); simpl.
    + rewrite Hi. by eexists.
    + by repeat case_match.
  - by repeat case_match.
  - destruct (timerRef (pollCleanup x)); simpl; by rewrite Hi.
  - destruct (timerRef (pollCleanup x)); simpl; by rewrite Hi.
Qed.

Lemma effects_poll p s :
  worker s = true → poll_shape s →
  let s' := effects (Some p) s in
  if changed (Some p) (render s) poll_deps then
    match polling s with
    | Some token =>
        ∃ id, intervals s' = [mkInterval id token (now s + poll_period)]
              ∧ timerRef s' = Some id
    | None => intervals s' = []
    end
  else timers s' = timers s.
Proof.
  intros Hw Hshape s'. subst s'. unfold effects.
  set (s3 := run_effect (changed (Some p) (render s) init_deps) _ _).
  assert (timers s3 = timers s ∧ now s3 = now s) as [Ht Hn].
  { subst s3. split.
    - rewrite run_effect_pres by apply initEffect_timers.
      rewrite run_effect_pres by done.
      apply run_effect_pres, workerEffect_timers.
    - rewrite (run_effect_pres now) by apply initEffect_now.
      rewrite (run_effect_pres now) by done.
      apply run_effect_pres, workerEffect_now. }
  destruct (changed (Some p) (render s) poll_deps); unfold run_effect at 1;
    [|exact Ht].
  assert (poll_shape s3) as Hshape3.
  { unfold poll_shape, timers in *. injection Ht as -> ->. done. }
  pose proof (poll_stage (render s) s3 Hw Hshape3) as H. simpl in H.
  by rewrite Hn in H.
Qed.

Lemma render_effects_steady p s :
  worker s = true → polling (effects p s) = polling s ∧ now (effects p s) = now s.
Proof.
  intros Hw. split.
  - apply polling_render. by apply effects_render.
  - apply now_effects.
Qed.

(** Only a tick of the interval touches the timers of the poll. *)
Lemma handle_timers e s :
  (∀ id, e ≠ ev_interval id) →
  timers (handle e s) = timers s ∧ now (handle e s) = now s.
Proof.
  intros Hne. destruct e; simpl; try done.
  - destruct (worker s); [|done]. destruct data; simpl; try done.
    unfold resolve_current. by repeat case_match.
  - unfold handleVisibilityChange, setTimeout. by destruct (worker s).
  - unfold timeout_fires, reject_current. by repeat case_match.
  - by destruct (Hne id).
  - unfold send. by case_match.
  - unfold on. by case_match.
Qed.

Lemma admissible_now t e s : admissible t e s = true → now s ≤ t.
Proof.
  unfold admissible. rewrite !andb_true_iff.
  intros [[[H%bool_decide_eq_true _] _] _]. done.
Qed.

Lemma admissible_intervals t e s iv :
  admissible t e s = true → iv ∈ intervals s → t ≤ iv_due iv.
Proof.
  unfold admissible. rewrite !andb_true_iff.
  intros [[[_ _] H] _] Hin. rewrite forallb_forall in H.
  apply list_elem_of_In, H, bool_decide_eq_true in Hin. done.
Qed.

Lemma admissible_interval t id s :
  admissible t (ev_interval id) s = true →
  ∃ iv, iv ∈ intervals s ∧ iv_id iv = id ∧ iv_due iv = t.
Proof.
  unfold admissible. rewrite !andb_true_iff.
  intros [_ (iv & Hin & [??]%bool_decide_eq_true)%existsb_exists].
  exists iv. by rewrite list_elem_of_In.
Qed.

Lemma interval_fires_single id token due s :
  intervals s = [mkInterval id token due] →
  interval_fires id s
  = postMessage (post_connection_init token)
      (with_intervals [mkInterval id token (due + poll_period)] s).
Proof.
  intros Hi. unfold interval_fires. rewrite Hi. simpl.
  rewrite !decide_True by done. done.
Qed.

(** One admissible event keeps the poll as it has to be. *)
Lemma poll_ok_step s t e :
  worker s = true → poll_ok s → admissible t e s = true →
  poll_ok (deliver e (with_now t s)).
Proof.
  intros Hw Hok Hadm.
  pose proof (admissible_now _ _ _ Hadm) as Hnow.
  set (s0 := with_now t s).
  assert (worker (handle e s0) = true) as Hw' by by rewrite worker_handle.
  unfold deliver. rewrite rerender_steady by done.
  destruct (render_effects_steady (Some (render s0)) (handle e s0) Hw') as [Hp Hn].
  (* what the handler leaves of the poll *)
  assert (now (handle e s0) = t
          ∧ match polling s with
            | Some token =>
                ∃ id due, intervals (handle e s0) = [mkInterval id token due]
                          ∧ timerRef (handle e s0) = Some id
                          ∧ t ≤ due ≤ t + poll_period
            | None => intervals (handle e s0) = []
            end) as [Hnow' Hh].
  { unfold poll_ok in Hok.
    assert ((∃ id, e = ev_interval id) ∨ (∀ id, e ≠ ev_interval id))
      as [[id ->]|Hne] by (destruct e; eauto).
    - apply admissible_interval in Hadm as (iv & Hin & Hid & Hdue).
      destruct (polling s) as [token|].
      + destruct Hok as (id' & due & Hi & Href & Hd).
        rewrite Hi in Hin. apply list_elem_of_singleton in Hin. subst iv.
        simpl in Hid, Hdue. subst id' due.
        simpl handle. rewrite (interval_fires_single id token t) by done.
        split; [done|]. exists id, (t + poll_period). simpl.
        split_and!; try done; unfold poll_period; lia.
      + rewrite Hok in Hin. by apply elem_of_nil in Hin.
    - destruct (handle_timers e s0 Hne) as [Ht Hn0].
      unfold timers in Ht. injection Ht as Hi Href.
      split; [by rewrite Hn0|].
      destruct (polling s) as [token|].
      + destruct Hok as (id & due & Hi' & Href' & Hd).
        exists id, due. rewrite Hi, Href. split_and!; try done.
        * eapply (admissible_intervals _ _ _ (mkInterval id token due)) in Hadm;
            [done|]. rewrite Hi'. by apply list_elem_of_singleton.
        * lia. 
      + by rewrite Hi. }
  assert (poll_shape (handle e s0)) as Hshape.
  { unfold poll_shape. destruct (polling s).
    - destruct Hh as (id & due & -> & -> & _). right. by eexists.
    - by left. }
  pose proof (effects_poll (render s0) (handle e s0) Hw' Hshape) as Heff.
  cbv zeta in Heff. unfold poll_ok. rewrite Hp, Hn.
  destruct (changed (Some (render s0)) (render (handle e s0)) poll_deps) eqn:Hch.
  - destruct (polling (handle e s0)) as [token|]; [|done].
    destruct Heff as (id & Hi & Href).
    exists id, (now (handle e s0) + poll_period).
    split_and!; try done; unfold poll_period; lia.
  - unfold timers in Heff. injection Heff as -> ->.
    unfold changed in Hch. apply bool_decide_eq_false in Hch.
    apply dec_stable in Hch. apply polling_deps in Hch.
    rewrite <-Hch. change (polling s0) with (polling s).
    by rewrite Hnow'.
Qed.

Lemma poll_invariant s : reachable s → poll_ok s.
Proof.
  intros Hr.
  cut (worker s = true ∧ poll_ok s); [by intros []|].
  revert s Hr. apply (reachable_ind (λ s, worker s = true ∧ poll_ok s)).
  - intros token o. rewrite mount_eq. split; [done|]. by unfold poll_ok, polling.
  - intros s t e [Hw Hok] Hadm. split.
    + by apply worker_deliver.
    + by apply poll_ok_step.
Qed.

Lemma run_app tr1 tr2 s :
  run (tr1 ++ tr2) s = run tr1 s ≫= run tr2.
Proof.
  revert s. induction tr1 as [|te tr1 IH]; intros s; simpl; [done|].
  destruct (step te s); simpl; [apply IH | done].
Qed.

Lemma reachable_step s t e :
  reachable s → admissible t e s = true → reachable (deliver e (with_now t s)).
Proof.
  intros (token & o & tr & Hrun) Hadm.
  exists token, o, (tr ++ [(t, e)]).
  rewrite run_app, Hrun. simpl. unfold step. simpl. by rewrite Hadm.
Qed.

(** ** C5: the reconnect poll *)

Lemma deliver_interval id token due s :
  intervals s = [mkInterval id token due] →
  deliver (ev_interval id) s
  = postMessage (post_connection_init token)
      (with_intervals [mkInterval id token (due + poll_period)] s).
Proof.
  intros Hi. unfold deliver. simpl handle.
  rewrite (interval_fires_single id token due) by done.
  by apply rerender_unchanged.
Qed.

Lemma posted_app e s ms :
  outbox (deliver e s) = outbox s ++ ms → posted e s = ms.
Proof. intros H. unfold posted. rewrite H. apply drop_app_length. Qed.

Lemma step_interval_none t id s :
  intervals s = [] → step (t, ev_interval id) s = None.
Proof.
  intros Hi. unfold step, admissible. simpl. rewrite Hi. simpl.
  by rewrite andb_false_r.
Qed.

(** C5.  In every reachable state there is at most one reconnect interval.
    When the status is unset, closed or error, a credential is present and
    the transport is ready, there is exactly one: it is held by
    [timerRef], its next tick is due within one period of 30 s, the tick
    posts [{type:'connection:init', token}] with the current credential and
    re-arms the interval one period later.  When the status is outside that
    set there is no interval, and no tick can happen. *)
Theorem reconnect_poll_timer (s : St) :
  reachable s →
  (length (intervals s) ≤ 1)%nat
  ∧ (∀ token,
       disconnected (state s) = true → truthy (accessToken s) = Some token →
       ready s = true →
       ∃ id due,
         intervals s = [mkInterval id token due]
         ∧ timerRef s = Some id
         ∧ now s ≤ due ≤ now s + poll_period
         ∧ poll_period = 30000
         ∧ posted (ev_interval id) (with_now due s) = [post_connection_init token]
         ∧ intervals (deliver (ev_interval id) (with_now due s))
           = [mkInterval id token (due + poll_period)])
  ∧ (disconnected (state s) = false →
     intervals s = [] ∧ ∀ t id, step (t, ev_interval id) s = None).
Proof.
  intros Hr. pose proof (poll_invariant s Hr) as Hok.
  unfold poll_ok, polling in Hok. split_and!.
  - destruct (disconnected (state s) && ready s); [|rewrite Hok; simpl; lia].
    destruct (truthy (accessToken s)); [|rewrite Hok; simpl; lia].
    destruct Hok as (id & due & -> & _). simpl. lia.
  - intros token Hd Ht Hrdy. rewrite Hd, Hrdy, Ht in Hok. simpl in Hok.
    destruct Hok as (id & due & Hi & Href & Hdue).
    exists id, due. do 4 (split; [done|]). split.
    + apply posted_app. by rewrite (deliver_interval id token due).
    + by rewrite (deliver_interval id token due).
  - intros Hd. rewrite Hd in Hok. simpl in Hok.
    split; [done|]. intros t id. by apply step_interval_none.
Qed.

Lemma reconnect_poll_timer_witness :
  let s := after (Some "token") all_callbacks
             [(10, ev_message worker_ready);
              (20, ev_message connection_ready);
              (30, ev_message (connection_closed (Some "x")))] in
  reachable s
  ∧ (length (intervals s) ≤ 1)%nat
  ∧ intervals s = [mkInterval 2 "token" 30030].
Proof.
  intros s.
  assert (reachable s) as Hr.
  { exists (Some "token"), all_callbacks,
      [(10, ev_message worker_ready); (20, ev_message connection_ready);
       (30, ev_message (connection_closed (Some "x")))].
    vm_compute. reflexivity. }
  split_and!; [exact Hr | exact (proj1 (reconnect_poll_timer s Hr)) |
               vm_compute; reflexivity].
Defined.

(** ** C6: the poll and the disconnected predicate *)

Lemma ready_deliver e s :
  worker s = true → ready (deliver e s) = ready (handle e s).
Proof.
  intros Hw. unfold deliver.
  pose proof (rerender_react (Some (render s)) (handle e s)) as H.
  rewrite worker_handle in H. specialize (H Hw).
  unfold react in H. by injection H.
Qed.

Lemma reject_current_pending s timeout :
  latches s !! deferredRef s = Some (mkDeferred pending (Some timeout)) →
  state (reject_current s) = Some (mkSignalState closed (Some lost_message))
  ∧ ready (reject_current s) = false.
Proof. intros H. unfold reject_current. by rewrite H. Qed.

Lemma not_ready_no_interval s : reachable s → ready s = false → intervals s = [].
Proof.
  intros Hok%poll_invariant Hr. unfold poll_ok, polling in Hok.
  by rewrite Hr, andb_false_r in Hok.
Qed.

(** C6, as the code has it.  In every reachable state: no reconnect
    interval while the status is connected, reconnected or reconnecting;
    one interval, with its next tick due within a period, when the status is
    disconnected, a credential is present and the transport is marked
    ready; and none while the transport is not marked ready or the
    credential is absent.  A probe
    timeout that rejects the pending latch forces the status to closed and
    marks the transport not ready, so the state it reaches has no
    interval. *)
Theorem poll_runs_iff_disconnected_and_ready (s : St) :
  reachable s →
  (disconnected (state s) = false → intervals s = [])
  ∧ (disconnected (state s) = true → is_Some (truthy (accessToken s)) →
     ready s = true →
     ∃ iv, intervals s = [iv]
           ∧ truthy (accessToken s) = Some (iv_token iv)
           ∧ now s ≤ iv_due iv ≤ now s + poll_period)
  ∧ (ready s = false → intervals s = [])
  ∧ (truthy (accessToken s) = None → intervals s = [])
  ∧ (∀ t id timeout,
       admissible t (ev_timeout id) s = true →
       latches s !! deferredRef s = Some (mkDeferred pending (Some timeout)) →
       let s' := deliver (ev_timeout id) (with_now t s) in
       state s' = Some (mkSignalState closed (Some lost_message))
       ∧ ready s' = false
       ∧ intervals s' = []).
Proof.
  intros Hr. pose proof (poll_invariant s Hr) as Hok.
  unfold poll_ok, polling in Hok. split_and!.
  - intros Hd. by rewrite Hd in Hok.
  - intros Hd [token Ht] Hrdy. rewrite Hd, Hrdy, Ht in Hok. simpl in Hok.
    destruct Hok as (id & due & Hi & _ & Hdue).
    eexists. by rewrite Ht.
  - by apply not_ready_no_interval.
  - intros Ht. rewrite Ht in Hok. by destruct (disconnected (state s) && ready s).
  - intros t id timeout Hadm Hl s'.
    destruct (reject_current_pending (clearTimeout id (with_now t s)) timeout Hl)
      as [Hst Hrdy].
    assert (ready s' = false) as Hrdy'.
    { subst s'. rewrite ready_deliver; [exact Hrdy|]. exact (reachable_worker s Hr). }
    split_and!; [subst s'; rewrite state_deliver; exact Hst | done |].
    apply not_ready_no_interval; [|done]. by apply reachable_step.
Qed.

Lemma poll_runs_iff_disconnected_and_ready_witness :
  let s := after (Some "token") all_callbacks
             [(10, ev_message worker_ready);
              (20, ev_message connection_ready);
              (100, ev_visibilitychange)] in
  reachable s
  ∧ admissible 1100 (ev_timeout 2) s = true
  ∧ latches s !! deferredRef s = Some (mkDeferred pending (Some 2%positive))
  ∧ intervals (deliver (ev_timeout 2) (with_now 1100 s)) = [].
Proof.
  intros s.
  assert (reachable s) as Hr.
  { exists (Some "token"), all_callbacks,
      [(10, ev_message worker_ready); (20, ev_message connection_ready);
       (100, ev_visibilitychange)].
    vm_compute. reflexivity. }
  assert (admissible 1100 (ev_timeout 2) s = true) as Ha
    by (vm_compute; reflexivity).
  assert (latches s !! deferredRef s = Some (mkDeferred pending (Some 2%positive)))
    as Hl by (vm_compute; reflexivity).
  split_and!; [exact Hr | exact Ha | exact Hl |].
  destruct (poll_runs_iff_disconnected_and_ready s Hr) as (_ & _ & _ & _ & H).
  exact (proj2 (proj2 (H 1100 2%positive 2%positive Ha Hl))).
Defined.

(** C6 as stated fails.  After [worker:ready] and [connection:ready], a
    probe whose timeout fires leaves the status closed with the credential
    present and no reconnect interval: the transport is marked not ready.
    More than a polling period later there is still none, and nothing was
    posted by a poll in between. *)
Lemma no_timer_after_probe_timeout :
  let s := after (Some "token") all_callbacks lost_worker_trace in
  let s' := after (Some "token") all_callbacks
              (lost_worker_trace ++ [(100000, ev_send "t" "a")]) in
  reachable s
  ∧ state s = Some (mkSignalState closed (Some lost_message))
  ∧ truthy (accessToken s) = Some "token"
  ∧ intervals s = []
  ∧ ¬ timer_synchronised s
  ∧ reachable s'
  ∧ intervals s' = []
  ∧ outbox s' = outbox s ++ [post_send "t" "a"]
  ∧ ¬ timer_synchronised s'.
Proof.
  intros s s'. subst s s'. split_and!.
  - exists (Some "token"), all_callbacks, lost_worker_trace.
    vm_compute. reflexivity.
  - vm_compute. reflexivity.
  - vm_compute. reflexivity.
  - vm_compute. reflexivity.
  - intros [_ H]. vm_compute in H.
    apply H; [reflexivity | by eexists | reflexivity].
  - exists (Some "token"), all_callbacks,
      (lost_worker_trace ++ [(100000, ev_send "t" "a")]).
    vm_compute. reflexivity.
  - vm_compute. reflexivity.
  - vm_compute. reflexivity.
  - intros [_ H]. vm_compute in H.
    apply H; [reflexivity | by eexists | reflexivity].
Qed.

(** ** C8: the initialisation message *)

Lemma outbox_initEffect r s : outbox (initEffect r s) = outbox s ++ init_posts r.
Proof.
  unfold initEffect, init_posts.
  repeat case_match; simpl; by rewrite ?app_nil_r.
Qed.

Lemma outbox_pollEffect r s : outbox (pollEffect r s) = outbox s.
Proof. unfold pollEffect, setInterval. by repeat case_match. Qed.

Lemma outbox_pollCleanup s : outbox (pollCleanup s) = outbox s.
Proof. unfold pollCleanup. by case_match. Qed.

Lemma outbox_workerEffect r s : outbox (workerEffect r s) = outbox s.
Proof. unfold workerEffect. by case_match. Qed.

Lemma outbox_effects p s :
  outbox (effects p s)
  = outbox s ++ (if changed p (render s) init_deps then init_posts (render s) else []).
Proof.
  unfold effects.
  rewrite run_effect_pres.
  2:{ intros x. rewrite outbox_pollEffect. destruct p; [apply outbox_pollCleanup|done]. }
  unfold run_effect at 1.
  destruct (changed p (render s) init_deps).
  - rewrite outbox_initEffect. f_equal.
    rewrite run_effect_pres by done. apply run_effect_pres, outbox_workerEffect.
  - rewrite app_nil_r.
    rewrite run_effect_pres by done. apply run_effect_pres, outbox_workerEffect.
Qed.

Lemma outbox_deliver e s :
  worker s = true →
  outbox (deliver e s)
  = outbox (handle e s)
    ++ (if changed (Some (render s)) (render (handle e s)) init_deps
        then init_posts (render (handle e s)) else []).
Proof.
  intros Hw. unfold deliver.
  rewrite rerender_steady by by rewrite worker_handle.
  apply outbox_effects.
Qed.

(** What a handler itself posts; only a tick of an interval posts
    [connection:init]. *)
Lemma outbox_handle e s :
  ∃ ms, outbox (handle e s) = outbox s ++ ms
        ∧ ∀ token, post_connection_init token ∈ ms →
            ∃ id iv, e = ev_interval id ∧ iv ∈ intervals s
                       ∧ iv_id iv = id ∧ iv_token iv = token.
Proof.
  assert (∀ x, outbox x = outbox s →
    ∃ ms, outbox x = outbox s ++ ms
          ∧ ∀ token, post_connection_init token ∈ ms →
              ∃ id iv, e = ev_interval id ∧ iv ∈ intervals s
                       ∧ iv_id iv = id ∧ iv_token iv = token)
    as Hsame.
  { intros x ->. exists []. split; [by rewrite app_nil_r | by intros ? ?%elem_of_nil]. }
  assert (∀ m, (∀ token, m ≠ post_connection_init token) →
    ∃ ms, outbox s ++ [m] = outbox s ++ ms
          ∧ ∀ token, post_connection_init token ∈ ms →
              ∃ id iv, e = ev_interval id ∧ iv ∈ intervals s
                       ∧ iv_id iv = id ∧ iv_token iv = token)
    as Hother.
  { intros m Hm. exists [m]. split; [done|].
    intros token Heq%list_elem_of_singleton. by destruct (Hm token). }
  destruct e; simpl.
  - destruct (worker s); [|by apply Hsame].
    destruct data; simpl; try by apply Hsame.
    apply Hsame. unfold resolve_current. by repeat case_match.
  - unfold handleVisibilityChange, setTimeout.
    destruct (worker s); simpl; [by apply Hother | by apply Hsame].
  - apply Hsame. unfold timeout_fires, reject_current. by repeat case_match.
  - unfold interval_fires.
    destruct (list_find _ _) as [[i iv]|] eqn:Hfind; [|by apply Hsame].
    apply list_find_Some in Hfind as (Hl & Hid & _).
    simpl. eexists. split; [done|].
    intros token [= ->]%list_elem_of_singleton.
    exists id, iv. split_and!; [done | by eapply list_elem_of_lookup_2 | done | done].
  - by apply Hsame.
  - unfold send. destruct (worker s); [by apply Hother | by apply Hsame].
  - unfold on. destruct (worker s); simpl; [by apply Hother | by apply Hsame].
  - by apply Hsame.
Qed.

(** C8.  In a reachable state: when the transport is ready and the
    credential changes to a present one (from none or from another value),
    the render posts [{type:'connection:init', token}] with the new
    credential, and nothing else; when the credential is present and the
    transport becomes ready, [worker:ready] is followed by the same post;
    and whatever the event, a [connection:init] is posted only when, after
    it, the transport is ready and the credential posted is the current
    one. *)
Theorem init_sent_when_ready_and_token (s : St) :
  reachable s →
  (∀ token t,
     ready s = true → truthy token = Some t → accessToken s ≠ token →
     posted (ev_accessToken token) s = [post_connection_init t])
  ∧ (∀ t,
       ready s = false → truthy (accessToken s) = Some t →
       posted (ev_message worker_ready) s = [post_connection_init t])
  ∧ (∀ e t,
       post_connection_init t ∈ posted e s →
       ready (deliver e s) = true ∧ truthy (accessToken (deliver e s)) = Some t).
Proof.
  intros Hr. pose proof (reachable_worker s Hr) as Hw. split_and!.
  - intros token t Hrdy Ht Hne. apply posted_app.
    rewrite outbox_deliver by done. simpl. f_equal.
    rewrite bool_decide_true by (unfold init_deps; simpl; congruence).
    unfold init_posts. simpl. by rewrite Hw, Hrdy, Ht.
  - intros t Hrdy Ht. apply posted_app.
    rewrite outbox_deliver by done. rewrite handle_message by done. simpl. f_equal.
    rewrite bool_decide_true by (unfold init_deps; simpl; congruence).
    unfold init_posts. simpl. by rewrite Hw, Ht.
  - intros e t Hin.
    destruct (outbox_handle e s) as (ms & Hms & Hinit).
    pose proof (outbox_deliver e s Hw) as Ho. rewrite Hms, <-app_assoc in Ho.
    apply posted_app in Ho. rewrite Ho in Hin.
    unfold deliver at 2. rewrite accessToken_rerender, ready_deliver by done.
    apply elem_of_app in Hin as [Hin|Hin].
    + destruct (Hinit t Hin) as (id & iv & -> & Hiv & <- & <-).
      pose proof (poll_invariant s Hr) as Hok. unfold poll_ok, polling in Hok.
      destruct (disconnected (state s) && ready s) eqn:Hdr;
        [|rewrite Hok in Hiv; by apply elem_of_nil in Hiv].
      destruct (truthy (accessToken s)) as [token|] eqn:Ht;
        [|rewrite Hok in Hiv; by apply elem_of_nil in Hiv].
      destruct Hok as (id' & due & Hi & _).
      rewrite Hi in Hiv. apply list_elem_of_singleton in Hiv. subst iv.
      apply andb_true_iff in Hdr as [_ Hrdy].
      simpl handle. rewrite (interval_fires_single id' token due) by done.
      simpl. by rewrite Hrdy, Ht.
    + destruct (changed _ _ _); [|by apply elem_of_nil in Hin].
      unfold init_posts in Hin. simpl in Hin.
      destruct (worker (handle e s) && ready (handle e s)) eqn:Hwr;
        [|by apply elem_of_nil in Hin].
      apply andb_true_iff in Hwr as [_ Hrdy].
      destruct (truthy (accessToken (handle e s))) as [token|] eqn:Ht;
        [|by apply elem_of_nil in Hin].
      apply list_elem_of_singleton in Hin as [= ->]. done.
Qed.

Lemma init_sent_when_ready_and_token_witness :
  let s := after (Some "old") all_callbacks [(10, ev_message worker_ready)] in
  reachable s ∧ ready s = true ∧ truthy (Some "new") = Some "new"
  ∧ accessToken s ≠ Some "new"
  ∧ posted (ev_accessToken (Some "new")) s = [post_connection_init "new"].
Proof.
  intros s.
  assert (reachable s) as Hr.
  { exists (Some "old"), all_callbacks, [(10, ev_message worker_ready)].
    vm_compute. reflexivity. }
  assert (ready s = true) as Hrdy by (vm_compute; reflexivity).
  assert (truthy (Some "new") = Some "new") as Ht by (vm_compute; reflexivity).
  assert (accessToken s ≠ Some "new") as Hne by (vm_compute; discriminate).
  split_and!; [exact Hr | exact Hrdy | exact Ht | exact Hne |].
  exact (proj1 (init_sent_when_ready_and_token s Hr) (Some "new") "new" Hrdy Ht Hne).
Defined.

Lemma off_removes_only_its_callback_witness :
  let s := mount (Some "token") all_callbacks in
  worker s = true ∧ 1%nat ≠ 2%nat
  ∧ outbox (off "chat" 1%nat s) = outbox s.
Proof.
  intros s.
  assert (worker s = true) as Hw by (vm_compute; reflexivity).
  assert (1%nat ≠ 2%nat) as Hne by discriminate.
  split_and!; [exact Hw | exact Hne |].
  exact (proj2 (proj2 (off_removes_only_its_callback true true "chat" "hello"
                         1%nat 2%nat [event_received "chat" "hello"] s Hw Hne))).
Defined.

(** ** A probe on its own *)

Lemma deliver_visibilitychange s :
  deliver ev_visibilitychange s = handleVisibilityChange (worker s) s.
Proof.
  unfold deliver. apply rerender_unchanged.
  simpl. unfold handleVisibilityChange, setTimeout. by destruct (worker s).
Qed.

(** What a visibility change leaves behind: a fresh pending latch in the
    ref, whose reaction holds the identifier of a new timeout due 1000 ms
    later. *)
Lemma probe_started s :
  latches (deliver ev_visibilitychange s) !! deferredRef (deliver ev_visibilitychange s)
  = Some (mkDeferred pending (Some (nextId s)))
  ∧ timeouts (deliver ev_visibilitychange s)
    = timeouts s ++ [mkTimeout (nextId s) (now s + probe_timeout)]
  ∧ state (deliver ev_visibilitychange s) = state s
  ∧ worker (deliver ev_visibilitychange s) = worker s.
Proof.
  rewrite deliver_visibilitychange.
  unfold handleVisibilityChange, setTimeout.
  destruct (worker s) eqn:Hw; simpl;
    rewrite list_lookup_alter_eq, list_lookup_middle by done; simpl;
    by rewrite ?Hw.
Qed.

(** A [pong] never changes the status. *)
Lemma pong_keeps_status s : state (deliver (ev_message pong) s) = state s.
Proof.
  rewrite state_deliver. simpl. destruct (worker s); [|done].
  apply state_resolve_current.
Qed.

(** A probe with no other probe in flight, answered before its timeout
    fires: the status is as it was, the transport is marked ready and the
    timeout is cancelled. *)
Lemma lone_probe_answered s :
  worker s = true → timeouts s = [] →
  let s2 := deliver (ev_message pong) (deliver ev_visibilitychange s) in
  state s2 = state s ∧ ready s2 = true ∧ timeouts s2 = [].
Proof.
  intros Hw Hnone. cbv zeta.
  destruct (probe_started s) as (Hl & Ht & Hst & Hw1). rewrite Hw in Hw1.
  set (s1 := deliver ev_visibilitychange s) in *.
  split_and!.
  - by rewrite pong_keeps_status.
  - rewrite ready_deliver, handle_message by done.
    unfold onmessage, resolve_current. by rewrite Hl.
  - unfold deliver. rewrite timeouts_rerender, handle_message by done.
    unfold onmessage, resolve_current. rewrite Hl. simpl. rewrite Ht, Hnone.
    rewrite app_nil_l, filter_cons_False by (intros H; by apply H). done.
Qed.

(** A probe whose timeout fires while its latch is the one in the ref and
    still pending: the transport is marked not ready and the status is
    closed with the message of a lost worker, whatever it was. *)
Lemma lone_probe_times_out t s :
  worker s = true →
  let s1 := deliver ev_visibilitychange s in
  let s2 := deliver (ev_timeout (nextId s)) (with_now t s1) in
  state s2 = Some (mkSignalState closed (Some lost_message)) ∧ ready s2 = false.
Proof.
  intros Hw. cbv zeta.
  destruct (probe_started s) as (Hl & Ht & Hst & Hw1). rewrite Hw in Hw1.
  set (s1 := deliver ev_visibilitychange s) in *.
  destruct (reject_current_pending (clearTimeout (nextId s) (with_now t s1))
              (nextId s) Hl) as [Hst2 Hrdy2].
  split.
  - rewrite state_deliver. exact Hst2.
  - rewrite ready_deliver by done. exact Hrdy2.
Qed.

(** ** C2 and C3: overlapping probes *)

(** C3, on the code.  After a second visibility change has stored a fresh
    latch in [deferredRef], the timeout of the first probe still acts: it
    fires 500 ms after the second probe, rejects the second probe's latch
    (the first one stays pending for ever), marks the transport not ready
    and forces the status to closed.  Likewise a [pong] that arrives after the
    second visibility change resolves the second latch, whichever ping it
    answers. *)
Theorem stale_timeout_rejects_newer_latch :
  let s1 := after (Some "token") all_callbacks overlapping_probes_trace in
  let s2 := after (Some "token") all_callbacks
              (overlapping_probes_trace ++ [(1100, ev_timeout 2)]) in
  let s3 := after (Some "token") all_callbacks
              (overlapping_probes_trace ++ [(650, ev_message pong)]) in
  reachable s1 ∧ reachable s2 ∧ reachable s3
  ∧ deferredRef s1 = 2%nat
  ∧ latches s1 = [mkDeferred pending None;
                  mkDeferred pending (Some 2%positive);
                  mkDeferred pending (Some 3%positive)]
  ∧ timeouts s1 = [mkTimeout 2 1100; mkTimeout 3 1600]
  ∧ (state s1, ready s1) = (Some (mkSignalState connected None), true)
  ∧ latches s2 = [mkDeferred pending None;
                  mkDeferred pending (Some 2%positive);
                  mkDeferred rejected (Some 3%positive)]
  ∧ (state s2, ready s2, now s2)
    = (Some (mkSignalState closed (Some lost_message)), false, 1100)
  ∧ latches s3 = [mkDeferred pending None;
                  mkDeferred pending (Some 2%positive);
                  mkDeferred resolved (Some 3%positive)]
  ∧ timeouts s3 = [mkTimeout 2 1100].
Proof.
  intros s1 s2 s3. subst s1 s2 s3. split_and!.
  - exists (Some "token"), all_callbacks, overlapping_probes_trace.
    vm_compute. reflexivity.
  - exists (Some "token"), all_callbacks,
      (overlapping_probes_trace ++ [(1100, ev_timeout 2)]).
    vm_compute. reflexivity.
  - exists (Some "token"), all_callbacks,
      (overlapping_probes_trace ++ [(650, ev_message pong)]).
    vm_compute. reflexivity.
  - vm_compute. reflexivity.
  - vm_compute. reflexivity.
  - vm_compute. reflexivity.
  - vm_compute. reflexivity.
  - vm_compute. reflexivity.
  - vm_compute. reflexivity.
  - vm_compute. reflexivity.
  - vm_compute. reflexivity.
Qed.

(** C2, on the code.  The second of two overlapping probes is sent at
    600 ms and its [pong] arrives at 1300 ms, within its 1000 ms; the status
    was connected when it was sent.  The status is nevertheless closed with
    the message of a lost worker, and the transport not ready: the first
    probe's timeout fired in between and rejected the second probe's
    latch, and the [pong] found it settled. *)
Theorem answered_probe_forced_closed :
  let s1 := after (Some "token") all_callbacks overlapping_probes_trace in
  let s := after (Some "token") all_callbacks late_answer_trace in
  reachable s
  ∧ (now s1, state s1) = (600, Some (mkSignalState connected None))
  ∧ now s - now s1 < probe_timeout
  ∧ (state s, ready s) = (Some (mkSignalState closed (Some lost_message)), false)
  ∧ calls s = calls s1 ++ [onStatusChange (mkSignalState closed (Some lost_message));
                           onClosed (Some lost_message)].
Proof.
  intros s1 s. subst s1 s. split_and!.
  - exists (Some "token"), all_callbacks, late_answer_trace.
    vm_compute. reflexivity.
  - vm_compute. reflexivity.
  - vm_compute. reflexivity.
  - vm_compute. reflexivity.
  - vm_compute. reflexivity.
Qed.

(** * More properties of the hook *)

(** ** The status, once set *)

(** X1.  The unset status is the initial one only: along any admissible
    trace, a hook that has a status keeps having one. *)
Theorem status_stays_set (tr : list (Z * Event)) (s s' : St) :
  run tr s = Some s' → is_Some (state s) → is_Some (state s').
Proof.
  intros Hrun Hs.
  apply (run_invariant (λ x, is_Some (state x))) with tr s; [|done|done].
  intros x [t e] x' Hx Hstep. unfold step in Hstep. simpl in Hstep.
  destruct (admissible t e x); [|done]. simplify_eq.
  rewrite state_deliver.
  destruct (state (handle e (with_now t x))) eqn:Hh; [by eexists|].
  apply state_handle_None in Hh. simpl in Hh. rewrite Hh in Hx. by destruct Hx.
Qed.

Lemma status_stays_set_witness :
  let s := after (Some "token") all_callbacks
             [(10, ev_message worker_ready); (20, ev_message connection_ready)] in
  run [(30, ev_visibilitychange); (1030, ev_timeout 2)] s
  = Some (after (Some "token") all_callbacks lost_worker_trace_short)
  ∧ is_Some (state s)
  ∧ is_Some (state (after (Some "token") all_callbacks lost_worker_trace_short)).
Proof.
  intros s.
  assert (run [(30, ev_visibilitychange); (1030, ev_timeout 2)] s
          = Some (after (Some "token") all_callbacks lost_worker_trace_short)) as Hrun
    by (vm_compute; reflexivity).
  assert (is_Some (state s)) as Hs by (vm_compute; by eexists).
  split_and!; [exact Hrun | exact Hs |].
  exact (status_stays_set _ _ _ Hrun Hs).
Defined.

(** ** What changes [ready] *)

Lemma ready_resolve_current s :
  ready (resolve_current s) = ready s ∨ ready (resolve_current s) = true.
Proof. unfold resolve_current. repeat case_match; simpl; auto. Qed.

Lemma ready_reject_current s :
  ready (reject_current s) = ready s ∨ ready (reject_current s) = false.
Proof. unfold reject_current. repeat case_match; simpl; auto. Qed.

(** X2.  Only three events touch the ready flag of a mounted hook:
    [worker:ready] and [pong] can set it, a probe's timeout can clear it.
    No connection message, token change or call of the facade changes
    it. *)
Theorem ready_changed_only_by (e : Event) (s : St) :
  worker s = true →
  (ready s = false → ready (deliver e s) = true →
   e = ev_message worker_ready ∨ e = ev_message pong)
  ∧ (ready s = true → ready (deliver e s) = false → ∃ id, e = ev_timeout id).
Proof.
  intros Hw. rewrite ready_deliver by done.
  destruct e; simpl; rewrite ?Hw.
  - destruct data; simpl; split; intros H1 H2; try congruence; auto.
    destruct (ready_resolve_current s); congruence.
  - unfold handleVisibilityChange, setTimeout. simpl. split; congruence.
  - split; intros H1 H2; [|by eexists].
    unfold timeout_fires in H2.
    destruct (ready_reject_current (clearTimeout id s)) as [H|H];
      simpl in H; congruence.
  - unfold interval_fires. split; repeat case_match; simpl; congruence.
  - simpl. split; congruence.
  - unfold send. simpl. split; congruence.
  - unfold on. simpl. split; congruence.
  - simpl. split; congruence.
Qed.

Lemma ready_changed_only_by_witness :
  let s := after (Some "token") all_callbacks
             [(10, ev_message worker_ready); (30, ev_visibilitychange)] in
  worker s = true ∧ ready s = true
  ∧ ready (deliver (ev_timeout 2) s) = false
  ∧ ∃ id, ev_timeout 2 = ev_timeout id.
Proof.
  intros s.
  assert (worker s = true) as Hw by (vm_compute; reflexivity).
  assert (ready s = true) as Hr by (vm_compute; reflexivity).
  assert (ready (deliver (ev_timeout 2) s) = false) as Hf by (vm_compute; reflexivity).
  split_and!; [exact Hw | exact Hr | exact Hf |].
  exact (proj2 (ready_changed_only_by (ev_timeout 2) s Hw) Hr Hf).
Defined.

(** ** The poll across status changes and token changes *)

Lemma effects_timers_unchanged p s :
  changed (Some p) (render s) poll_deps = false →
  timers (effects (Some p) s) = timers s.
Proof.
  intros Hch. unfold effects. rewrite Hch. unfold run_effect at 1.
  rewrite run_effect_pres by apply initEffect_timers.
  rewrite run_effect_pres by done.
  apply run_effect_pres, workerEffect_timers.
Qed.

(** X3.  While the status is disconnected, a further [connection:closed] or
    [connection:error] does not restart the reconnect poll: the interval,
    its due time and [timerRef] stay as they are, and nothing is posted. *)
Theorem poll_survives_closed_and_error (m : WorkerOutgoingMessage) (s : St) :
  worker s = true → disconnected (state s) = true →
  (∃ msg, m = connection_closed msg ∨ m = connection_error msg) →
  intervals (deliver (ev_message m) s) = intervals s
  ∧ timerRef (deliver (ev_message m) s) = timerRef s
  ∧ outbox (deliver (ev_message m) s) = outbox s
  ∧ disconnected (state (deliver (ev_message m) s)) = true.
Proof.
  intros Hw Hd (msg & Hm).
  assert (state (handle (ev_message m) s) ≠ None
          ∧ disconnected (state (handle (ev_message m) s)) = true
          ∧ timers (handle (ev_message m) s) = timers s
          ∧ outbox (handle (ev_message m) s) = outbox s
          ∧ worker (handle (ev_message m) s) = worker s
          ∧ ready (handle (ev_message m) s) = ready s
          ∧ accessToken (handle (ev_message m) s) = accessToken s)
    as (_ & Hd' & Ht & Ho & Hw' & Hr' & Ha').
  { rewrite handle_message by done. by destruct Hm as [-> | ->]. }
  assert (timers (deliver (ev_message m) s) = timers s) as Htimers.
  { unfold deliver. rewrite rerender_steady by by rewrite worker_handle.
    rewrite effects_timers_unchanged; [done|].
    unfold changed, poll_deps, render.
    cbn [r_state r_accessToken r_worker r_ready].
    rewrite Hd', Hd, Hw', Hr', Ha'. by rewrite bool_decide_false by (intros H; by apply H). }
  unfold timers in Htimers. injection Htimers as Hi Href.
  split_and!; try done.
  - rewrite outbox_deliver by done.
    unfold changed, init_deps, render.
    cbn [r_state r_accessToken r_worker r_ready]. rewrite Hw', Hr', Ha', Ho.
    rewrite bool_decide_false by (intros H; by apply H). by rewrite app_nil_r.
  - by rewrite state_deliver.
Qed.

Lemma poll_survives_closed_and_error_witness :
  let s := after (Some "token") all_callbacks
             [(10, ev_message worker_ready);
              (20, ev_message (connection_closed None))] in
  worker s = true ∧ disconnected (state s) = true
  ∧ intervals (deliver (ev_message (connection_error (Some "x"))) s)
    = [mkInterval 1 "token" 30010].
Proof.
  intros s.
  assert (worker s = true) as Hw by (vm_compute; reflexivity).
  assert (disconnected (state s) = true) as Hd by (vm_compute; reflexivity).
  split_and!; [exact Hw | exact Hd |].
  rewrite (proj1 (poll_survives_closed_and_error (connection_error (Some "x")) s
                    Hw Hd (ex_intro _ (Some "x") (or_intror eq_refl)))).
  vm_compute. reflexivity.
Defined.

(** X4.  When the credential changes to another present one while the poll
    is running, the poll is restarted with it: the interval left is a new
    one carrying the new credential, due a full period from now. *)
Theorem token_change_restarts_poll (token : option string) (t : string) (s : St) :
  reachable s → disconnected (state s) = true → ready s = true →
  truthy token = Some t → accessToken s ≠ token →
  ∃ id, intervals (deliver (ev_accessToken token) s)
        = [mkInterval id t (now s + poll_period)]
        ∧ timerRef (deliver (ev_accessToken token) s) = Some id.
Proof.
  intros Hr Hd Hrdy Ht Hne.
  pose proof (reachable_worker s Hr) as Hw.
  pose proof (poll_ok_shape s (poll_invariant s Hr)) as Hshape.
  unfold deliver. rewrite rerender_steady by done.
  pose proof (effects_poll (render s) (with_accessToken token s) Hw Hshape) as H.
  cbv zeta in H.
  assert (changed (Some (render s)) (render (with_accessToken token s)) poll_deps
          = true) as Hch.
  { unfold changed, poll_deps. apply bool_decide_eq_true. simpl. congruence. }
  rewrite Hch in H. unfold polling in H. simpl in H.
  by rewrite Hd, Hrdy, Ht in H.
Qed.

Lemma token_change_restarts_poll_witness :
  let s := after (Some "old") all_callbacks [(10, ev_message worker_ready)] in
  reachable s ∧ disconnected (state s) = true ∧ ready s = true
  ∧ truthy (Some "new") = Some "new" ∧ accessToken s ≠ Some "new"
  ∧ ∃ id, intervals (deliver (ev_accessToken (Some "new")) s)
          = [mkInterval id "new" (now s + poll_period)]
          ∧ timerRef (deliver (ev_accessToken (Some "new")) s) = Some id.
Proof.
  intros s.
  assert (reachable s) as Hr.
  { exists (Some "old"), all_callbacks, [(10, ev_message worker_ready)].
    vm_compute. reflexivity. }
  assert (disconnected (state s) = true) as Hd by (vm_compute; reflexivity).
  assert (ready s = true) as Hrdy by (vm_compute; reflexivity).
  assert (truthy (Some "new") = Some "new") as Ht by (vm_compute; reflexivity).
  assert (accessToken s ≠ Some "new") as Hne by (vm_compute; discriminate).
  split_and!; [exact Hr | exact Hd | exact Hrdy | exact Ht | exact Hne |].
  exact (token_change_restarts_poll (Some "new") "new" s Hr Hd Hrdy Ht Hne).
Defined.

(** X5.  Recovery after a lost worker.  When the transport is marked not
    ready, the status is disconnected and a credential is present, a [pong]
    that resolves the pending probe marks the transport ready, leaves the
    status as it is, posts [connection:init] with the credential and starts
    the reconnect poll again. *)
Theorem answered_probe_recovers (timeout : positive) (t : string) (s : St) :
  reachable s → ready s = false →
  latches s !! deferredRef s = Some (mkDeferred pending (Some timeout)) →
  disconnected (state s) = true → truthy (accessToken s) = Some t →
  let s' := deliver (ev_message pong) s in
  ready s' = true ∧ state s' = state s
  ∧ posted (ev_message pong) s = [post_connection_init t]
  ∧ ∃ id, intervals s' = [mkInterval id t (now s + poll_period)].
Proof.
  intros Hr Hrdy Hl Hd Ht s'. subst s'.
  pose proof (reachable_worker s Hr) as Hw.
  assert (handle (ev_message pong) s
          = setReady true (clearTimeout timeout (settle resolved s))) as Hh.
  { rewrite handle_message by done. unfold onmessage, resolve_current. by rewrite Hl. }
  split_and!.
  - rewrite ready_deliver by done. by rewrite Hh.
  - apply pong_keeps_status.
  - apply posted_app. rewrite outbox_deliver by done. rewrite Hh.
    cbn [outbox setReady clearTimeout with_timeouts settle with_deferred]. f_equal.
    unfold changed, init_deps, init_posts, render. simpl.
    rewrite Hrdy, Hw, Ht.
    by rewrite bool_decide_true by congruence.
  - unfold deliver. rewrite rerender_steady by by rewrite worker_handle.
    assert (poll_shape (handle (ev_message pong) s)) as Hshape.
    { left. rewrite Hh. simpl. by apply not_ready_no_interval. }
    pose proof (effects_poll (render s) (handle (ev_message pong) s)) as H.
    rewrite worker_handle in H. specialize (H Hw Hshape). cbv zeta in H.
    rewrite Hh in *.
    assert (changed (Some (render s))
              (render (setReady true (clearTimeout timeout (settle resolved s))))
              poll_deps = true) as Hch.
    { unfold changed, poll_deps. apply bool_decide_eq_true. simpl. congruence. }
    rewrite Hch in H. unfold polling in H. simpl in H.
    rewrite Hd, Ht in H. simpl in H. destruct H as (id & Hi & _). by exists id.
Qed.

Lemma answered_probe_recovers_witness :
  let s := after (Some "token") all_callbacks
             (lost_worker_trace ++ [(5000, ev_visibilitychange)]) in
  reachable s ∧ ready s = false
  ∧ latches s !! deferredRef s = Some (mkDeferred pending (Some 3%positive))
  ∧ disconnected (state s) = true ∧ truthy (accessToken s) = Some "token"
  ∧ posted (ev_message pong) s = [post_connection_init "token"].
Proof.
  intros s.
  assert (reachable s) as Hr.
  { exists (Some "token"), all_callbacks,
      (lost_worker_trace ++ [(5000, ev_visibilitychange)]).
    vm_compute. reflexivity. }
  assert (ready s = false) as Hrdy by (vm_compute; reflexivity).
  assert (latches s !! deferredRef s = Some (mkDeferred pending (Some 3%positive)))
    as Hl by (vm_compute; reflexivity).
  assert (disconnected (state s) = true) as Hd by (vm_compute; reflexivity).
  assert (truthy (accessToken s) = Some "token") as Ht by (vm_compute; reflexivity).
  split_and!; [exact Hr | exact Hrdy | exact Hl | exact Hd | exact Ht |].
  exact (proj1 (proj2 (proj2 (answered_probe_recovers 3 "token" s Hr Hrdy Hl Hd Ht)))).
Defined.

(** ** A probe on its own, with messages in between *)

Lemma options_handle e s : options (handle e s) = options s.
Proof.
  destruct e; simpl; try done.
  - destruct (worker s); [|done]. destruct data; simpl; try done.
    unfold resolve_current. by repeat case_match.
  - unfold handleVisibilityChange, setTimeout. by destruct (worker s).
  - unfold timeout_fires, reject_current. by repeat case_match.
  - unfold interval_fires. by repeat case_match.
  - unfold send. by case_match.
  - unfold on. by case_match.
Qed.

Lemma options_deliver e s : options (deliver e s) = options s.
Proof. unfold deliver. by rewrite options_rerender, options_handle. Qed.

(** A message other than [pong] leaves the probe alone. *)
Lemma probe_kept_by_message m s :
  m ≠ pong →
  latches (deliver (ev_message m) s) = latches s
  ∧ deferredRef (deliver (ev_message m) s) = deferredRef s
  ∧ timeouts (deliver (ev_message m) s) = timeouts s.
Proof.
  intros Hm. unfold deliver.
  pose proof (rerender_core (Some (render s)) (handle (ev_message m) s)) as Hc.
  rewrite (f_equal (λ c, c.1.1.2) Hc : latches (rerender _ _) = _).
  rewrite (f_equal (λ c, c.1.1.1.2) Hc : deferredRef (rerender _ _) = _).
  rewrite timeouts_rerender.
  simpl. destruct (worker s); [|done]. by destruct m.
Qed.

Lemma probe_kept_by_messages ms s :
  pong ∉ ms →
  latches (deliver_messages ms s) = latches s
  ∧ deferredRef (deliver_messages ms s) = deferredRef s
  ∧ timeouts (deliver_messages ms s) = timeouts s
  ∧ options (deliver_messages ms s) = options s.
Proof.
  unfold deliver_messages. revert s.
  induction ms as [|m ms IH]; intros s Hms; [done|]. simpl.
  apply not_elem_of_cons in Hms as [Hm Hms].
  destruct (IH (deliver (ev_message m) s) Hms) as (-> & -> & -> & ->).
  destruct (probe_kept_by_message m s) as (-> & -> & ->); [done|].
  by rewrite options_deliver.
Qed.

Lemma worker_deliver_messages ms s :
  worker s = true → worker (deliver_messages ms s) = true.
Proof.
  unfold deliver_messages. revert s.
  induction ms as [|m ms IH]; intros s Hw; [done|].
  simpl. by apply IH, worker_deliver.
Qed.

(** The status after a list of messages depends on the status before
    only. *)
Lemma state_deliver_messages ms s1 s2 :
  worker s1 = true → worker s2 = true → state s1 = state s2 →
  state (deliver_messages ms s1) = state (deliver_messages ms s2).
Proof.
  unfold deliver_messages. revert s1 s2.
  induction ms as [|m ms IH]; intros s1 s2 Hw1 Hw2 Hst; [done|]. simpl.
  apply IH; try by apply worker_deliver.
  rewrite !state_deliver, !handle_message by done.
  destruct m; simpl; rewrite ?state_resolve_current, ?Hst; done.
Qed.

(** X6.  A probe with no other timeout pending, answered by a [pong] before
    its timeout fires, does not change the status, whatever other messages
    arrive between the visibility change and the [pong]: the status is the
    one those messages give.  The transport is marked ready and the
    probe's timeout is cancelled. *)
Theorem lone_probe_answered_among_messages
    (ms : list WorkerOutgoingMessage) (s : St) :
  worker s = true → timeouts s = [] → pong ∉ ms →
  let s2 := deliver (ev_message pong)
              (deliver_messages ms (deliver ev_visibilitychange s)) in
  state s2 = state (deliver_messages ms s)
  ∧ ready s2 = true
  ∧ timeouts s2 = [].
Proof.
  intros Hw Hnone Hms. cbv zeta.
  destruct (probe_started s) as (Hl & Ht & Hst & Hw1). rewrite Hw in Hw1.
  set (s0 := deliver ev_visibilitychange s) in *.
  destruct (probe_kept_by_messages ms s0 Hms) as (Hl1 & Hd1 & Ht1 & _).
  pose proof (worker_deliver_messages ms s0 Hw1) as Hw2.
  set (s1 := deliver_messages ms s0) in *.
  assert (latches s1 !! deferredRef s1
          = Some (mkDeferred pending (Some (nextId s)))) as Hl2.
  { by rewrite Hl1, Hd1. }
  split_and!.
  - rewrite pong_keeps_status. by apply state_deliver_messages.
  - rewrite ready_deliver, handle_message by done.
    unfold onmessage, resolve_current. by rewrite Hl2.
  - unfold deliver. rewrite timeouts_rerender, handle_message by done.
    unfold onmessage, resolve_current. rewrite Hl2. simpl.
    rewrite Ht1, Ht, Hnone.
    rewrite app_nil_l, filter_cons_False by (intros H; by apply H). done.
Qed.

Lemma lone_probe_answered_among_messages_witness :
  let s := after (Some "token") all_callbacks
             [(10, ev_message worker_ready); (20, ev_message connection_ready)] in
  let ms := [connection_reconnecting; connection_reconnected] in
  worker s = true ∧ timeouts s = [] ∧ (pong ∉ ms)
  ∧ state (deliver (ev_message pong)
             (deliver_messages ms (deliver ev_visibilitychange s)))
    = Some (mkSignalState reconnected None).
Proof.
  intros s ms.
  assert (worker s = true) as Hw by (vm_compute; reflexivity).
  assert (timeouts s = []) as Ht by (vm_compute; reflexivity).
  assert (pong ∉ ms) as Hms.
  { subst ms. intros [H|[H|H]%elem_of_cons]%elem_of_cons;
      [discriminate | discriminate | by apply elem_of_nil in H]. }
  split_and!; [exact Hw | exact Ht | exact Hms |].
  rewrite (proj1 (lone_probe_answered_among_messages ms s Hw Ht Hms)).
  vm_compute. reflexivity.
Defined.

(** X7.  A probe whose timeout fires before any [pong] (and before another
    visibility change) forces the status to closed with the message of a
    lost worker and marks the transport not ready, whatever the status was
    and whatever other messages arrived meanwhile; the callbacks called are
    [onStatusChange] and then [onClosed] with that message, each when
    given. *)
Theorem lone_probe_times_out_among_messages
    (t : Z) (ms : list WorkerOutgoingMessage) (s : St) :
  worker s = true → pong ∉ ms →
  let s1 := deliver_messages ms (deliver ev_visibilitychange s) in
  let s2 := deliver (ev_timeout (nextId s)) (with_now t s1) in
  state s2 = Some (mkSignalState closed (Some lost_message))
  ∧ ready s2 = false
  ∧ calls s2
    = calls s1 ++ filter (λ c, given (options s) c = true)
                    [onStatusChange (mkSignalState closed (Some lost_message));
                     onClosed (Some lost_message)].
Proof.
  intros Hw Hms. cbv zeta.
  destruct (probe_started s) as (Hl & Ht & Hst & Hw1). rewrite Hw in Hw1.
  assert (options (deliver ev_visibilitychange s) = options s) as Ho0.
  { apply options_deliver. }
  set (s0 := deliver ev_visibilitychange s) in *.
  destruct (probe_kept_by_messages ms s0 Hms) as (Hl1 & Hd1 & Ht1 & Ho1).
  pose proof (worker_deliver_messages ms s0 Hw1) as Hw2.
  set (s1 := deliver_messages ms s0) in *.
  assert (latches s1 !! deferredRef s1
          = Some (mkDeferred pending (Some (nextId s)))) as Hl2.
  { by rewrite Hl1, Hd1. }
  assert (handle (ev_timeout (nextId s)) (with_now t s1)
          = setState (mkSignalState closed (Some lost_message))
              (setReady false
                 (settle rejected (clearTimeout (nextId s) (with_now t s1)))))
    as Hh.
  { simpl. unfold timeout_fires, reject_current.
    change (latches (clearTimeout (nextId s) (with_now t s1))
            !! deferredRef (clearTimeout (nextId s) (with_now t s1)))
      with (latches s1 !! deferredRef s1).
    by rewrite Hl2. }
  split_and!.
  - rewrite state_deliver. by rewrite Hh.
  - rewrite ready_deliver by done. by rewrite Hh.
  - unfold deliver. rewrite rerender_steady by by rewrite worker_handle.
    rewrite calls_effects, Hh.
    cbn [calls options state setState setReady settle clearTimeout with_now
         with_timeouts with_deferred].
    unfold changed, render. cbn [r_stateVer stateVer setState].
    rewrite bool_decide_true by (simpl; lia).
    by rewrite statusEffect_given, Ho1, Ho0.
Qed.

Lemma lone_probe_times_out_among_messages_witness :
  let s := after (Some "token") all_callbacks
             [(10, ev_message worker_ready); (20, ev_message connection_ready)] in
  let ms := [connection_reconnected] in
  worker s = true ∧ (pong ∉ ms)
  ∧ state (deliver (ev_timeout (nextId s))
             (with_now 1020 (deliver_messages ms (deliver ev_visibilitychange s))))
    = Some (mkSignalState closed (Some lost_message)).
Proof.
  intros s ms.
  assert (worker s = true) as Hw by (vm_compute; reflexivity).
  assert (pong ∉ ms) as Hms.
  { subst ms. intros [H|H]%elem_of_cons; [discriminate | by apply elem_of_nil in H]. }
  split_and!; [exact Hw | exact Hms |].
  exact (proj1 (lone_probe_times_out_among_messages 1020 ms s Hw Hms)).
Defined.

(** ** Without callbacks *)

Lemma statusEffect_no_callbacks st : statusEffect no_callbacks st = [].
Proof. destruct st as [[[] ?]|]; reflexivity. Qed.

(** X8.  When the application gives no callback ([options] absent or
    empty), a status change calls nothing: along any admissible trace the
    only calls made are calls of emitter listeners. *)
Theorem nothing_called_without_callbacks
    (token : option string) (tr : list (Z * Event)) (s : St) :
  run tr (mount token no_callbacks) = Some s →
  state_calls_only_listeners s.
Proof.
  intros Hrun.
  cut (options s = no_callbacks ∧ state_calls_only_listeners s); [by intros []|].
  apply (run_invariant
           (λ x, options x = no_callbacks ∧ state_calls_only_listeners x))
    with tr (mount token no_callbacks); [| |done].
  - intros x [t e] x' [Ho Hx] Hstep. unfold step in Hstep. simpl in Hstep.
    destruct (admissible t e x); [|done]. simplify_eq. split.
    + by rewrite options_deliver.
    + intros c Hin. unfold deliver in Hin.
      destruct (calls_rerender (Some (render (with_now t x)))
                  (handle e (with_now t x))) as (b1 & b2 & Hc).
      rewrite Hc, options_handle in Hin. simpl in Hin.
      rewrite Ho, statusEffect_no_callbacks in Hin.
      replace (if b1 then [] else []) with (@nil Call) in Hin by by destruct b1.
      replace (if b2 then [] else []) with (@nil Call) in Hin by by destruct b2.
      rewrite !app_nil_r in Hin.
      destruct (calls_handle e (with_now t x)) as (ls & Hls & Hlisteners).
      rewrite Hls in Hin. apply elem_of_app in Hin as [Hin|Hin];
        [by apply Hx | by apply Hlisteners].
  - rewrite mount_eq. split; [done|]. by intros c ?%elem_of_nil.
Qed.

Lemma nothing_called_without_callbacks_witness :
  let tr := [(10, ev_message worker_ready);
             (20, ev_message connection_ready);
             (30, ev_message (connection_error (Some "x")))] in
  run tr (mount (Some "token") no_callbacks)
  = Some (after (Some "token") no_callbacks tr)
  ∧ calls (after (Some "token") no_callbacks tr) = [].
Proof.
  intros tr.
  assert (run tr (mount (Some "token") no_callbacks)
          = Some (after (Some "token") no_callbacks tr)) as Hrun
    by (vm_compute; reflexivity).
  split; [exact Hrun|].
  pose proof (nothing_called_without_callbacks _ _ _ Hrun) as H.
  destruct (calls (after (Some "token") no_callbacks tr)) as [|c cs] eqn:Hc;
    [reflexivity|].
  vm_compute in Hc. discriminate Hc.
Defined.

(** ** The closures of the handlers *)

Lemma mount_closures_eq token o : mount_closures token o = settled_closures.
Proof.
  unfold mount_closures, rerender_closures.
  assert (effects None (initial token o)
          = mkSt token o None 0%nat false true EventEmitter.empty 0%nat None
              [mkDeferred pending None] 0 1%positive [] [] [] []) as ->
    by reflexivity.
  destruct (decide _) as [Heq|_]; [by inversion Heq|].
  reflexivity.
Qed.

Lemma deliver_closures_settled e s :
  worker s = true → deliver_closures e s settled_closures = settled_closures.
Proof.
  intros Hw. unfold deliver_closures, rerender_closures.
  assert (worker (handle e s) = true) as Hw' by by rewrite worker_handle.
  rewrite effects_render, decide_True by done.
  unfold install, changed. simpl. rewrite Hw', Hw.
  by rewrite bool_decide_false by (intros H; by apply H).
Qed.

Lemma run_closures_settled tr s s' c :
  worker s = true → run_closures tr s settled_closures = Some (s', c) →
  run tr s = Some s' ∧ c = settled_closures.
Proof.
  revert s. induction tr as [|[t e] tr IH]; intros s Hw Hrun; simpl in *.
  - by simplify_eq.
  - destruct (step (t, e) s) as [s1|] eqn:Hstep; [|done].
    rewrite deliver_closures_settled in Hrun by done.
    apply IH; [|done].
    unfold step in Hstep. simpl in Hstep.
    destruct (admissible t e s); [|done]. simplify_eq.
    by apply worker_deliver.
Qed.

Lemma run_closures_total tr s s' :
  worker s = true → run tr s = Some s' →
  run_closures tr s settled_closures = Some (s', settled_closures).
Proof.
  revert s. induction tr as [|[t e] tr IH]; intros s Hw Hrun; simpl in *.
  - by simplify_eq.
  - destruct (step (t, e) s) as [s1|] eqn:Hstep; [|done].
    rewrite deliver_closures_settled by done.
    apply IH; [|done].
    unfold step in Hstep. simpl in Hstep.
    destruct (admissible t e s); [|done]. simplify_eq.
    by apply worker_deliver.
Qed.

Lemma closures_of_run token o tr s :
  run tr (mount token o) = Some s →
  run_closures tr (mount token o) (mount_closures token o)
  = Some (s, settled_closures).
Proof.
  intros Hrun. rewrite mount_closures_eq.
  apply run_closures_total; [apply worker_mount | done].
Qed.

(** X9.  The [beforeunload] notice is never posted.  The effect that
    installs [unload] has an empty dependency array, so the listener is the
    one of the first render, whose [worker] is still [null]: after any
    admissible trace, the listener installed closes over no worker, and
    running it posts nothing on the port. *)
Theorem unload_posts_nothing
    (token : option string) (o : Options) (tr : list (Z * Event)) (s : St) :
  run tr (mount token o) = Some s →
  ∃ c, run_closures tr (mount token o) (mount_closures token o) = Some (s, c)
       ∧ unload_worker c = Some false
       ∧ ∀ w, unload_worker c = Some w →
              (unload w s).1 = [] ∧ outbox (unload w s).2 = outbox s.
Proof.
  intros Hrun. exists settled_closures.
  split; [by apply closures_of_run|]. split; [done|].
  by intros w [= <-].
Qed.

Lemma unload_posts_nothing_witness :
  let tr := [(10, ev_message worker_ready); (20, ev_message connection_ready)] in
  run tr (mount (Some "token") all_callbacks)
  = Some (after (Some "token") all_callbacks tr)
  ∧ ∃ c, run_closures tr (mount (Some "token") all_callbacks)
           (mount_closures (Some "token") all_callbacks)
         = Some (after (Some "token") all_callbacks tr, c)
         ∧ unload_worker c = Some false.
Proof.
  intros tr.
  assert (run tr (mount (Some "token") all_callbacks)
          = Some (after (Some "token") all_callbacks tr)) as Hrun
    by (vm_compute; reflexivity).
  split; [exact Hrun|].
  destruct (unload_posts_nothing _ _ _ _ Hrun) as (c & Hc & Hu & _).
  exists c. split; [exact Hc | exact Hu].
Defined.

(** X10.  The debug functions are installed once, by the first run of
    [useMemo], and close over the [null] worker of the first render:
    after any admissible trace, [window.ping()] posts no ping and
    [window.logSignal(target)] posts no [event:register].  A second
    [logSignal] for a target already logged changes nothing, so its
    selector is ignored. *)
Theorem debug_functions_post_nothing
    (token : option string) (o : Options) (tr : list (Z * Event)) (s : St) :
  run tr (mount token o) = Some s →
  ∃ c, run_closures tr (mount token o) (mount_closures token o) = Some (s, c)
       ∧ debug_worker c = Some false
       ∧ ∀ w, debug_worker c = Some w →
           ∀ target logFn logFn' logs,
             outbox (window_ping w logFn logs s).2 = outbox s
             ∧ outbox (logSignal w target logFn logs s).2 = outbox s
             ∧ logSignal w target logFn'
                 (logSignal w target logFn logs s).1
                 (logSignal w target logFn logs s).2
               = logSignal w target logFn logs s.
Proof.
  intros Hrun. exists settled_closures.
  split; [by apply closures_of_run|]. split; [done|].
  intros w [= <-] target logFn logFn' logs. split_and!.
  - unfold window_ping, logSignal. by case_decide.
  - unfold logSignal. by case_decide.
  - unfold logSignal. destruct (decide (target ∈ logs)) as [Hin|Hnin]; simpl.
    + by rewrite decide_True.
    + rewrite decide_True; [done|]. apply elem_of_union_l. by apply elem_of_singleton.
Qed.

Lemma debug_functions_post_nothing_witness :
  let tr := [(10, ev_message worker_ready)] in
  run tr (mount (Some "token") all_callbacks)
  = Some (after (Some "token") all_callbacks tr)
  ∧ outbox (window_ping false 9%nat ∅ (after (Some "token") all_callbacks tr)).2
    = outbox (after (Some "token") all_callbacks tr).
Proof.
  intros tr.
  assert (run tr (mount (Some "token") all_callbacks)
          = Some (after (Some "token") all_callbacks tr)) as Hrun
    by (vm_compute; reflexivity).
  split; [exact Hrun|].
  destruct (debug_functions_post_nothing _ _ _ _ Hrun) as (c & Hc & Hd & H).
  exact (proj1 (H false Hd "pong" 9%nat 9%nat ∅)).
Defined.

(** X11.  The message handler, the [visibilitychange] listener and the
    facade are installed again by the render that has the worker: after any
    admissible trace the handler is set and both closures hold the worker,
    so a visibility change posts one ping and arms one timeout due 1000 ms
    later, [on] posts one [event:register] and [send] one [send]. *)
Theorem listener_and_facade_hold_worker
    (token : option string) (o : Options) (tr : list (Z * Event)) (s : St) :
  run tr (mount token o) = Some s →
  ∃ c, run_closures tr (mount token o) (mount_closures token o) = Some (s, c)
       ∧ onmessage_set c = true
       ∧ (∀ w, visibility_worker c = Some w →
            w = worker s
            ∧ outbox (handleVisibilityChange w s) = outbox s ++ [post_ping]
            ∧ timeouts (handleVisibilityChange w s)
              = timeouts s ++ [mkTimeout (nextId s) (now s + 1000)])
       ∧ (∀ w, facade_worker c = Some w →
            w = worker s
            ∧ ∀ target args cb,
                outbox (on w target cb s) = outbox s ++ [post_event_register target]
                ∧ outbox (send w target args s) = outbox s ++ [post_send target args]).
Proof.
  intros Hrun. exists settled_closures.
  split; [by apply closures_of_run|]. split; [done|].
  assert (worker s = true) as Hw.
  { apply reachable_worker. by exists token, o, tr. }
  split; intros w [= <-]; by rewrite Hw.
Qed.

Lemma listener_and_facade_hold_worker_witness :
  let tr := [(10, ev_message worker_ready); (20, ev_on "chat" 1%nat)] in
  run tr (mount (Some "token") all_callbacks)
  = Some (after (Some "token") all_callbacks tr)
  ∧ ∃ c, run_closures tr (mount (Some "token") all_callbacks)
           (mount_closures (Some "token") all_callbacks)
         = Some (after (Some "token") all_callbacks tr, c)
         ∧ onmessage_set c = true.
Proof.
  intros tr.
  assert (run tr (mount (Some "token") all_callbacks)
          = Some (after (Some "token") all_callbacks tr)) as Hrun
    by (vm_compute; reflexivity).
  split; [exact Hrun|].
  destruct (listener_and_facade_hold_worker _ _ _ _ Hrun) as (c & Hc & Ho & _).
  exists c. split; [exact Hc | exact Ho].
Defined.

(** * The session provider *)

(** ** The accounts effect *)

Section AccountsProperties.

Import Accounts.

Lemma deactivate_idemp a : deactivate (deactivate a) = deactivate a.
Proof. done. Qed.

Lemma lookup_deactivate_list (ls : list nat) (h : list CivitaiAccount) (i : nat) :
  foldl (λ h' l, alter deactivate l h') h ls !! i
  = if decide (i ∈ ls) then deactivate <$> h !! i else h !! i.
Proof.
  revert h. induction ls as [|l ls IH]; intros h; cbn [foldl].
  - rewrite decide_False; [done|]. by intros ?%elem_of_nil.
  - rewrite IH, list_lookup_alter.
    destruct (decide (i ∈ l :: ls)) as [Hin|Hnin].
    + destruct (decide (i ∈ ls)) as [Hin'|Hnin'].
      * case_decide as Heq; [subst l|done]. by destruct (h !! i).
      * apply elem_of_cons in Hin as [->|?]; [|done].
        by rewrite decide_True.
    + apply not_elem_of_cons in Hnin as [Hne Hnin].
      destruct (decide (i ∈ ls)); [done|].
      by rewrite decide_False by congruence.
Qed.

Lemma length_deactivate_list (ls : list nat) (h : list CivitaiAccount) :
  length (foldl (λ h' l, alter deactivate l h') h ls) = length h.
Proof.
  revert h. induction ls as [|l ls IH]; intros h; simpl; [done|].
  by rewrite IH, length_alter.
Qed.

Lemma length_deactivate_all old h : length (deactivate_all old h) = length h.
Proof. apply length_deactivate_list. Qed.

Lemma lookup_deactivate_all (old : gmap string nat) h k l :
  old !! k = Some l → deactivate_all old h !! l = deactivate <$> h !! l.
Proof.
  intros Hk. unfold deactivate_all. rewrite lookup_deactivate_list.
  rewrite decide_True; [done|].
  apply list_elem_of_fmap. exists (k, l). split; [done|].
  by apply elem_of_map_to_list.
Qed.

(** The previous accounts object, read after the updater has run. *)
Lemma view_deactivate_all (old : gmap string nat) h :
  view old (deactivate_all old h) = deactivate <$> view old h.
Proof.
  apply map_eq. intros k. unfold view.
  rewrite lookup_fmap, !lookup_omap.
  destruct (old !! k) as [l|] eqn:Hk; simpl; [|done].
  by apply lookup_deactivate_all with k.
Qed.

Lemma view_app_wf (m : gmap string nat) h a :
  (∀ k l, m !! k = Some l → (l < length h)%nat) →
  view m (h ++ [a]) = view m h.
Proof.
  intros Hwf. apply map_eq. intros k. unfold view. rewrite !lookup_omap.
  destruct (m !! k) as [l|] eqn:Hk; simpl; [|done].
  apply lookup_app_l. by apply Hwf with k.
Qed.

Lemma view_updater userIdStr mail prov st :
  wf st →
  view (accounts (updater userIdStr mail prov st))
       (heap (updater userIdStr mail prov st))
  = <[userIdStr := mkAccount mail prov true]>
      (deactivate <$> view (accounts st) (heap st)).
Proof.
  intros Hwf. unfold updater. simpl.
  rewrite <-view_deactivate_all.
  set (h := deactivate_all (accounts st) (heap st)).
  apply map_eq. intros k. unfold view.
  rewrite lookup_omap.
  destruct (decide (userIdStr = k)) as [->|Hne].
  - rewrite !lookup_insert_eq. simpl. by rewrite list_lookup_middle.
  - rewrite !lookup_insert_ne by done. rewrite lookup_omap.
    destruct (accounts st !! k) as [l|] eqn:Hk; simpl; [|done].
    apply lookup_app_l. subst h. rewrite length_deactivate_all. by apply Hwf with k.
Qed.


(** X12.  The accounts effect.  Without a user id (absent or 0), without
    an email (absent or empty) or without a queried account, the stored
    accounts are left as they are.  Otherwise the accounts object returned
    holds, under the user's id as a string, an active account with the
    session's email and the provider of the first queried account; every
    other entry keeps its key, email and provider and is inactive: the
    session user's account is the only active one. *)
Theorem accounts_effect_result (toString : Z → string) (userId : option Z)
    (mail : option string) (userAccounts : list string) (st : Stored) :
  wf st →
  let st' := accountsEffect toString userId mail userAccounts st in
  (userId = None ∨ userId = Some 0 ∨ mail = None ∨ mail = Some ""
   ∨ userAccounts = [] → st' = st)
  ∧ (∀ id m prov rest,
       userId = Some id → id ≠ 0 → mail = Some m → m ≠ "" →
       userAccounts = prov :: rest →
       view (accounts st') (heap st')
       = <[toString id := mkAccount m prov true]>
           (deactivate <$> view (accounts st) (heap st))
       ∧ ∀ k a, view (accounts st') (heap st') !! k = Some a →
                (active a = true ↔ k = toString id)).
Proof.
  intros Hwf st'. subst st'. split.
  - unfold accountsEffect.
    intros [H|[H|[H|[H|H]]]]; subst; try done.
    + destruct mail; [|done]. by rewrite decide_True by by left.
    + by destruct userId.
    + destruct userId; [|done]. by rewrite decide_True by by right.
    + destruct userId, mail; try done. by case_decide.
  - intros id m prov rest -> Hid -> Hm ->.
    unfold accountsEffect. rewrite decide_False by (intros [?|?]; done).
    rewrite view_updater by done. split; [done|].
    intros k a. destruct (decide (toString id = k)) as [<-|Hne].
    + rewrite lookup_insert_eq. intros [= <-]. done.
    + rewrite lookup_insert_ne, lookup_fmap by done.
      destruct (view (accounts st) (heap st) !! k); simpl; [|done].
      intros [= <-]. simpl. split; [done | congruence].
Qed.

Lemma accounts_effect_result_witness :
  let st := mkStored [mkAccount "old@mail" "github" true] {["7" := 0%nat]} in
  let st' := accountsEffect (λ _, "42") (Some 42) (Some "new@mail")
               ["discord"; "google"] st in
  wf st
  ∧ view (accounts st') (heap st')
    = <["42" := mkAccount "new@mail" "discord" true]>
        (deactivate <$> view (accounts st) (heap st)).
Proof.
  intros st st'.
  assert (wf st) as Hwf.
  { intros k l Hl. subst st. simpl in Hl.
    apply lookup_singleton_Some in Hl as [_ <-]. simpl. lia. }
  split; [exact Hwf|].
  refine (proj1 (proj2 (accounts_effect_result (λ _, "42") (Some 42)
                          (Some "new@mail") ["discord"; "google"] st Hwf)
                   42 "new@mail" "discord" ["google"] eq_refl _ eq_refl _ eq_refl));
    discriminate.
Defined.

(** X13.  The updater writes into the account objects it shares with the
    previous state: read after the update, the previous accounts object
    has every account inactive, with its keys, emails and providers as
    before. *)
Theorem updater_mutates_previous_state (userIdStr mail prov : string) (st : Stored) :
  wf st →
  view (accounts st) (heap (updater userIdStr mail prov st))
  = deactivate <$> view (accounts st) (heap st).
Proof.
  intros Hwf. unfold updater. simpl.
  rewrite view_app_wf; [apply view_deactivate_all|].
  intros k l Hl. rewrite length_deactivate_all. by apply Hwf with k.
Qed.

Lemma updater_mutates_previous_state_witness :
  let st := mkStored [mkAccount "old@mail" "github" true] {["7" := 0%nat]} in
  wf st
  ∧ view (accounts st) (heap (updater "42" "new@mail" "discord" st)) !! "7"
    = Some (mkAccount "old@mail" "github" false).
Proof.
  intros st.
  assert (wf st) as Hwf.
  { intros k l Hl. subst st. simpl in Hl.
    apply lookup_singleton_Some in Hl as [_ <-]. simpl. lia. }
  split; [exact Hwf|].
  rewrite (updater_mutates_previous_state "42" "new@mail" "discord" st Hwf).
  vm_compute. reflexivity.
Defined.



End AccountsProperties.

(** ** The store of the session context *)

Section SessionStoreProperties.

Import SessionStore.

Lemma read_insert k v (m : gmap string (option string)) k' :
  read (<[k := v]> m) k' = if decide (k = k') then v else read m k'.
Proof. unfold read. rewrite lookup_insert. by case_decide. Qed.

Lemma filter_ext_elem {A} (P Q : A → Prop)
    `{!∀ x, Decision (P x), !∀ x, Decision (Q x)} (l : list A) :
  (∀ x, x ∈ l → P x ↔ Q x) → filter P l = filter Q l.
Proof.
  induction l as [|a l IH]; intros Hext; [done|].
  rewrite !filter_cons.
  rewrite IH by (intros x Hx; apply Hext; by apply list_elem_of_further).
  pose proof (Hext a (list_elem_of_here a l)) as Ha.
  destruct (decide (P a)), (decide (Q a)); tauto || done.
Qed.

(** The loop over the entries of an object: the store it leaves, and the
    calls it makes. *)
Lemma foldl_sync_entry ls entries m log :
  NoDup entries.*1 →
  let acc := foldl (sync_entry ls) (m, log) entries in
  (∀ k, read acc.1 k = default (read m k) (object_of entries !! k))
  ∧ acc.2 = log ++ notifications ls m entries.
Proof.
  revert m log. induction entries as [|[k0 v0] rest IH]; intros m log Hnd; simpl.
  - split; [done|]. by rewrite app_nil_r.
  - apply NoDup_cons in Hnd as [Hk0 Hnd].
    set (acc1 := sync_entry ls (m, log) (k0, v0)).
    assert (∀ k, read acc1.1 k = if decide (k0 = k) then v0 else read m k) as Hread.
    { intros k. subst acc1. unfold sync_entry. simpl.
      destruct (decide (read m k0 ≠ v0)) as [Hne|Heq%dec_stable]; simpl.
      - apply read_insert.
      - case_decide; [by subst|done]. }
    assert (acc1.2 = log ++ notifications ls m [(k0, v0)]) as Hlog.
    { subst acc1. unfold sync_entry, notifications. simpl.
      rewrite filter_cons, filter_nil. simpl.
      destruct (decide (read m k0 ≠ v0)); simpl; by rewrite ?app_nil_r. }
    destruct acc1 as [m1 log1]. simpl in Hread, Hlog.
    destruct (IH m1 log1 Hnd) as [IHread IHlog]. split.
    + intros k. rewrite IHread, Hread. unfold object_of. simpl.
      rewrite lookup_insert.
      destruct (decide (k0 = k)) as [<-|Hne]; [|done].
      by rewrite (not_elem_of_list_to_map_1 rest k0).
    + rewrite IHlog, Hlog, <-app_assoc. f_equal.
      unfold notifications. rewrite <-bind_app. f_equal.
      change ((k0, v0) :: rest) with ([(k0, v0)] ++ rest).
      rewrite filter_app. f_equal.
      apply filter_ext_elem. intros [k v] Hin. simpl.
      rewrite Hread. rewrite decide_False; [done|].
      intros <-. apply Hk0. apply list_elem_of_fmap. by exists (k0, v).
Qed.

Lemma read_object_of entries k v :
  NoDup entries.*1 → (k, v) ∈ entries → read (object_of entries) k = v.
Proof.
  intros Hnd Hin. unfold read, object_of.
  by rewrite (proj1 (elem_of_list_to_map entries k v Hnd) Hin).
Qed.

Lemma valueEffect_read entries p k v :
  NoDup entries.*1 → (k, v) ∈ entries →
  session_get (valueEffect (Some entries) p) k = v.
Proof.
  intros Hnd Hin. unfold valueEffect, session_get. simpl.
  destruct (foldl_sync_entry (listeners p) entries
              (default (object_of entries) (current p)) (notified p) Hnd)
    as [Hread _].
  cbv zeta in Hread. rewrite Hread. unfold object_of.
  by rewrite (proj1 (elem_of_list_to_map entries k v Hnd) Hin).
Qed.

Lemma valueEffect_notified entries p :
  NoDup entries.*1 →
  notified (valueEffect (Some entries) p)
  = notified p
    ++ notifications (listeners p) (default (object_of entries) (current p)) entries.
Proof.
  intros Hnd. unfold valueEffect. simpl.
  by destruct (foldl_sync_entry (listeners p) entries
                 (default (object_of entries) (current p)) (notified p) Hnd)
    as [_ ->].
Qed.

(** X15.  After the effect has run for a value, the store agrees with the
    value on every key of the value, the proxy is set and the listeners are
    as before.  A key that the value does not have keeps what the store
    held for it: fields are never removed; and a [null] value that follows
    changes nothing, so the store keeps the last session. *)
Theorem value_effect_syncs (entries : list (string * option string)) (p : Provider) :
  NoDup entries.*1 →
  let p' := valueEffect (Some entries) p in
  (∀ k v, (k, v) ∈ entries → session_get p' k = v)
  ∧ (∀ k, k ∉ entries.*1 → session_get p' k = session_get p k)
  ∧ proxy p' = true
  ∧ listeners p' = listeners p
  ∧ valueEffect None p' = p'.
Proof.
  intros Hnd p'. subst p'. unfold valueEffect, session_get. simpl.
  destruct (foldl_sync_entry (listeners p) entries
              (default (object_of entries) (current p)) (notified p) Hnd)
    as [Hread _].
  cbv zeta in Hread. unfold object_of in *. split_and!; try done.
  - intros k v Hin. rewrite Hread.
    by rewrite (proj1 (elem_of_list_to_map entries k v Hnd) Hin).
  - intros k Hk. rewrite Hread.
    rewrite (not_elem_of_list_to_map_1 entries k Hk). simpl.
    destruct (current p); simpl; [done|].
    unfold read. by rewrite (not_elem_of_list_to_map_1 entries k Hk).
Qed.

Lemma value_effect_syncs_witness :
  let entries := [("id", Some "7"); ("username", Some "ann")] in
  let p := valueEffect (Some [("id", Some "7"); ("tier", Some "gold")])
             (first_render None) in
  NoDup entries.*1
  ∧ session_get (valueEffect (Some entries) p) "username" = Some "ann"
  ∧ session_get (valueEffect (Some entries) p) "tier" = Some "gold".
Proof.
  intros entries p.
  assert (NoDup entries.*1) as Hnd.
  { subst entries. simpl. apply NoDup_cons. split.
    - intros ?%list_elem_of_singleton. discriminate.
    - apply NoDup_singleton. }
  destruct (value_effect_syncs entries p Hnd) as (Hin & Hout & _).
  split_and!; [exact Hnd | |].
  - apply Hin. subst entries. apply list_elem_of_further, list_elem_of_here.
  - rewrite Hout; [vm_compute; reflexivity|].
    subst entries. simpl.
    intros [?|?%list_elem_of_singleton]%elem_of_cons; discriminate.
Defined.

(** X16.  The calls the effect makes: for every entry of the value whose
    value differs from what the store held, in the order of the entries,
    one call [listener(key, value)] of every listener, in the order of
    subscription, and no other call.  The first value stored (when the
    store was [null]) is announced to nobody. *)
Theorem value_effect_notifies (entries : list (string * option string)) (p : Provider) :
  NoDup entries.*1 →
  let p' := valueEffect (Some entries) p in
  notified p'
  = notified p
    ++ notifications (listeners p) (default (object_of entries) (current p)) entries
  ∧ (current p = None → notified p' = notified p).
Proof.
  intros Hnd p'. subst p'. unfold valueEffect. simpl.
  destruct (foldl_sync_entry (listeners p) entries
              (default (object_of entries) (current p)) (notified p) Hnd)
    as [_ Hlog].
  cbv zeta in Hlog. split; [done|].
  intros Hnone. rewrite Hlog, Hnone. simpl.
  unfold notifications.
  rewrite (filter_ext_elem _ (λ _, False)).
  - clear. induction entries as [|kv l IH]; [by rewrite app_nil_r|].
    rewrite filter_cons_False by tauto. done.
  - intros [k v] Hin. simpl. rewrite (read_object_of entries k v) by done. tauto.
Qed.

Lemma value_effect_notifies_witness :
  let entries := [("id", Some "7"); ("tier", Some "gold")] in
  let p := subscribe 1 (subscribe 2
             (valueEffect (Some [("id", Some "7"); ("tier", Some "free")])
                (first_render None))) in
  NoDup entries.*1
  ∧ notified (valueEffect (Some entries) p)
    = [(2%nat, "tier", Some "gold"); (1%nat, "tier", Some "gold")].
Proof.
  intros entries p.
  assert (NoDup entries.*1) as Hnd.
  { subst entries. simpl. apply NoDup_cons. split.
    - intros ?%list_elem_of_singleton. discriminate.
    - apply NoDup_singleton. }
  split; [exact Hnd|].
  rewrite (proj1 (value_effect_notifies entries p Hnd)).
  vm_compute. reflexivity.
Defined.

Lemma foldl_sync_entry_agree ls entries m log :
  (∀ kv, kv ∈ entries → read m kv.1 = kv.2) →
  foldl (sync_entry ls) (m, log) entries = (m, log).
Proof.
  induction entries as [|kv l IH]; intros Hagree; [done|]. simpl.
  unfold sync_entry at 2. simpl.
  rewrite decide_False by (intros H; apply H, Hagree, list_elem_of_here).
  apply IH. intros kv' ?. by apply Hagree, list_elem_of_further.
Qed.

(** X17.  The effect is idempotent: run again for the same value, it
    changes nothing and calls nobody. *)
Theorem value_effect_idempotent (entries : list (string * option string)) (p : Provider) :
  NoDup entries.*1 →
  valueEffect (Some entries) (valueEffect (Some entries) p)
  = valueEffect (Some entries) p.
Proof.
  intros Hnd.
  pose proof (λ k v, valueEffect_read entries p k v Hnd) as Hin.
  unfold session_get, valueEffect in Hin. simpl in Hin.
  unfold valueEffect. simpl.
  set (acc := foldl (sync_entry (listeners p))
                (default (object_of entries) (current p), notified p) entries) in *.
  rewrite foldl_sync_entry_agree; [done|].
  intros [k v] ?. by apply Hin.
Qed.

Lemma value_effect_idempotent_witness :
  let entries := [("id", Some "7"); ("tier", Some "gold")] in
  let p := subscribe 1 (first_render (Some [("id", Some "3")])) in
  NoDup entries.*1
  ∧ valueEffect (Some entries) (valueEffect (Some entries) p)
    = valueEffect (Some entries) p.
Proof.
  intros entries p.
  assert (NoDup entries.*1) as Hnd.
  { subst entries. simpl. apply NoDup_cons. split.
    - intros ?%list_elem_of_singleton. discriminate.
    - apply NoDup_singleton. }
  split; [exact Hnd|].
  exact (value_effect_idempotent entries p Hnd).
Defined.

Lemma elem_of_notifications n ls cur entries :
  n ∈ notifications ls cur entries
  ↔ n.1.1 ∈ ls ∧ (n.1.2, n.2) ∈ entries ∧ read cur n.1.2 ≠ n.2.
Proof.
  unfold notifications. rewrite list_elem_of_bind. split.
  - intros ([k v] & Hn & [Hne Hin]%list_elem_of_filter).
    apply list_elem_of_fmap in Hn as (f & -> & Hf). done.
  - intros (Hf & Hin & Hne). exists (n.1.2, n.2). split.
    + apply list_elem_of_fmap. exists n.1.1. by destruct n as [[??]?].
    + by apply list_elem_of_filter.
Qed.

(** The calls the loop adds are calls of subscribed listeners. *)
Lemma foldl_sync_entry_listeners ls entries m log :
  ∃ extra, (foldl (sync_entry ls) (m, log) entries).2 = log ++ extra
           ∧ ∀ n, n ∈ extra → n.1.1 ∈ ls.
Proof.
  revert m log. induction entries as [|kv l IH]; intros m log; simpl.
  - exists []. split; [by rewrite app_nil_r | by intros ? ?%elem_of_nil].
  - unfold sync_entry at 2. simpl. case_decide.
    + destruct (IH (<[kv.1:=kv.2]> m) (log ++ ((λ f, (f, kv.1, kv.2)) <$> ls)))
        as (extra & -> & Hextra).
      eexists. rewrite <-app_assoc. split; [done|].
      intros n [Hn|Hn]%elem_of_app; [|by apply Hextra].
      by apply list_elem_of_fmap in Hn as (f & -> & Hf).
    + apply IH.
Qed.

Lemma filter_ne_not_elem (f : nat) (ls : list nat) :
  f ∉ ls → filter (λ g, g ≠ f) ls = ls.
Proof.
  induction ls as [|g ls IH]; intros Hf; [done|].
  apply not_elem_of_cons in Hf as [Hne Hf].
  rewrite filter_cons_True by congruence. by rewrite IH.
Qed.

(** X18.  [subscribe] and the function it returns.  Subscribing a listener
    that is already subscribed changes nothing.  For a listener that was
    not subscribed, subscribing and then unsubscribing gives the listeners
    back as they were and answers [true]; unsubscribing it without
    subscribing answers [false].  Once unsubscribed, a listener is called
    by no later run of the effect. *)
Theorem unsubscribe_undoes_subscribe (f : nat) (p : Provider) :
  subscribe f (subscribe f p) = subscribe f p
  ∧ (f ∉ listeners p →
     unsubscribe f (subscribe f p) = (true, p) ∧ unsubscribe f p = (false, p))
  ∧ ∀ value n,
      n ∈ notified (valueEffect value (unsubscribe f p).2) →
      n ∈ notified p ∨ n.1.1 ≠ f.
Proof.
  split_and!.
  - unfold subscribe. simpl. destruct (decide (f ∈ listeners p)) as [Hin|Hnin].
    + by rewrite decide_True.
    + rewrite decide_True; [done|]. apply elem_of_app. right.
      by apply list_elem_of_singleton.
  - intros Hnin. unfold unsubscribe, subscribe. simpl.
    rewrite decide_False by done.
    rewrite filter_app, filter_ne_not_elem by done.
    rewrite filter_cons_False, filter_nil, app_nil_r by (intros H; by apply H).
    rewrite bool_decide_true
      by (apply elem_of_app; right; by apply list_elem_of_singleton).
    rewrite bool_decide_false by done.
    by destruct p.
  - intros [entries|] n; simpl; [|by left].
    destruct (foldl_sync_entry_listeners
                (filter (λ g, g ≠ f) (listeners p)) entries
                (default (object_of entries) (current p)) (notified p))
      as (extra & -> & Hextra).
    intros [Hn|Hn]%elem_of_app; [by left|right].
    apply Hextra, list_elem_of_filter in Hn as [Hne _]. done.
Qed.

Lemma unsubscribe_undoes_subscribe_witness :
  let p := subscribe 2 (first_render (Some [("id", Some "7")])) in
  (1%nat ∉ listeners p) ∧ unsubscribe 1 (subscribe 1 p) = (true, p).
Proof.
  intros p.
  assert (1%nat ∉ listeners p) as Hnin.
  { subst p. simpl. intros ?%list_elem_of_singleton. discriminate. }
  split; [exact Hnin|].
  exact (proj1 (proj1 (proj2 (unsubscribe_undoes_subscribe 1 p)) Hnin)).
Defined.

Lemma consumer_listener_spec k c :
  tracked (consumer_listener k c) = tracked c
  ∧ (rerenders c ≤ rerenders (consumer_listener k c))%nat
  ∧ (k ∈ tracked c → rerenders (consumer_listener k c) = S (rerenders c))
  ∧ (k ∉ tracked c → consumer_listener k c = c).
Proof.
  unfold consumer_listener. case_decide; simpl; split_and!; try done; lia.
Qed.

Lemma consumer_notified_cons f n log c :
  consumer_notified f (n :: log) c
  = consumer_notified f log
      (if decide (n.1.1 = f) then consumer_listener n.1.2 c else c).
Proof. done. Qed.

Lemma tracked_consumer_notified f log c :
  tracked (consumer_notified f log c) = tracked c
  ∧ (rerenders c ≤ rerenders (consumer_notified f log c))%nat.
Proof.
  revert c. induction log as [|n log IH]; intros c; [done|].
  rewrite consumer_notified_cons.
  destruct (IH (if decide (n.1.1 = f) then consumer_listener n.1.2 c else c))
    as [-> Hle].
  destruct (consumer_listener_spec n.1.2 c) as (Ht & Hle' & _).
  case_decide; split; (done || lia).
Qed.

Lemma consumer_notified_tracked f k v log c :
  (f, k, v) ∈ log → k ∈ tracked c →
  (rerenders c < rerenders (consumer_notified f log c))%nat.
Proof.
  revert c. induction log as [|n log IH]; intros c Hn Hk;
    [by apply elem_of_nil in Hn|].
  rewrite consumer_notified_cons.
  set (c1 := if decide (n.1.1 = f) then consumer_listener n.1.2 c else c).
  destruct (consumer_listener_spec n.1.2 c) as (Ht & Hle & Hs & _).
  apply elem_of_cons in Hn as [<-|Hn].
  - subst c1. simpl in *. rewrite decide_True by done.
    pose proof (proj2 (tracked_consumer_notified f log (consumer_listener k c))).
    specialize (Hs Hk). lia.
  - assert (tracked c1 = tracked c ∧ (rerenders c ≤ rerenders c1)%nat) as [Ht1 Hle1].
    { subst c1. by case_decide. }
    specialize (IH c1 Hn). rewrite Ht1 in IH. specialize (IH Hk). lia.
Qed.

Lemma consumer_notified_untracked f log c :
  (∀ n, n ∈ log → n.1.2 ∉ tracked c) → consumer_notified f log c = c.
Proof.
  induction log as [|n log IH]; intros Hlog; [done|].
  rewrite consumer_notified_cons.
  destruct (consumer_listener_spec n.1.2 c) as (_ & _ & _ & Hid).
  rewrite Hid by apply Hlog, list_elem_of_here.
  destruct (decide (n.1.1 = f));
    apply IH; intros n' ?; by apply Hlog, list_elem_of_further.
Qed.

(** X19.  A user of the session context is asked to render again exactly
    for the changes it has read.  Among the calls a run of the effect
    makes, those of a subscribed consumer leave it untouched when none of
    the changed keys is a key it has read through its proxy, and count at
    least one more render when one of them is. *)
Theorem consumer_rerenders_for_tracked_keys
    (f : nat) (entries : list (string * option string)) (p : Provider)
    (c : Consumer) :
  NoDup entries.*1 → f ∈ listeners p →
  let cur := default (object_of entries) (current p) in
  ∃ log, notified (valueEffect (Some entries) p) = notified p ++ log
    ∧ ((∀ k v, (k, v) ∈ entries → read cur k ≠ v → k ∉ tracked c) →
       consumer_notified f log c = c)
    ∧ (∀ k v, (k, v) ∈ entries → read cur k ≠ v → k ∈ tracked c →
       (rerenders c < rerenders (consumer_notified f log c))%nat).
Proof.
  intros Hnd Hf cur.
  exists (notifications (listeners p) cur entries).
  split; [by apply valueEffect_notified|].
  set (log := notifications (listeners p) cur entries).
  assert (∀ n, n ∈ log → (n.1.2, n.2) ∈ entries ∧ read cur n.1.2 ≠ n.2) as Hlog.
  { intros n Hn. by apply elem_of_notifications in Hn as (_ & ? & ?). }
  split.
  - intros Hnone. apply consumer_notified_untracked.
    intros n Hn. destruct (Hlog n Hn) as [Hin Hne]. by eapply Hnone.
  - intros k v Hin Hne Hk.
    apply consumer_notified_tracked with k v; [|done].
    by apply elem_of_notifications.
Qed.

Lemma consumer_rerenders_for_tracked_keys_witness :
  let entries := [("id", Some "7"); ("tier", Some "gold")] in
  let p := subscribe 1 (valueEffect (Some [("id", Some "7"); ("tier", Some "free")])
                          (first_render None)) in
  let c := (consumer_get "tier" p (mkConsumer ∅ true 0)).2 in
  NoDup entries.*1 ∧ 1%nat ∈ listeners p
  ∧ ∃ log, notified (valueEffect (Some entries) p) = notified p ++ log
           ∧ (rerenders c < rerenders (consumer_notified 1%nat log c))%nat.
Proof.
  intros entries p c.
  assert (NoDup entries.*1) as Hnd.
  { subst entries. simpl. apply NoDup_cons. split.
    - intros ?%list_elem_of_singleton. discriminate.
    - apply NoDup_singleton. }
  assert (1%nat ∈ listeners p) as Hf.
  { subst p. simpl. by apply list_elem_of_singleton. }
  split_and!; [exact Hnd | exact Hf |].
  destruct (consumer_rerenders_for_tracked_keys 1%nat entries p c Hnd Hf)
    as (log & Hlog & _ & Hlt).
  exists log. split; [exact Hlog|].
  apply (Hlt "tier" (Some "gold")).
  - subst entries. apply list_elem_of_further, list_elem_of_here.
  - vm_compute. discriminate.
  - subst c. simpl. apply elem_of_union_l. by apply elem_of_singleton.
Defined.

End SessionStoreProperties.
